(** * BenchmarkRunner: a shallow embedding of src/BenchmarkRunner.tsx

    The harness compares two ways of propagating a state update through
    a chain of nested components: a React context provider ("context",
    the scoped strategy) and a Redux store ("redux", the broadcast
    strategy).  The development follows the source top to bottom:
    payload generation, the two propagation media, the nested component
    chain, the aggregation handler and the sweep itself.

    JavaScript numbers that the harness uses as counts are modelled by
    [N] and [nat]; timings and random draws, which are fractional, by
    [Q].  JavaScript objects used as string-keyed maps are [gmap string].
    The readings of [performance.now()] and [Math.random()] come from the
    environment and are passed in explicitly. *)

From Stdlib Require Import QArith Lqa.
From stdpp Require Import gmap strings pretty list fin_maps fin_sets.

Local Open Scope string_scope.
Local Open Scope list_scope.

(** ** Payload generator (lines 6-11) *)

Record Item := mkItem {
  id : N;
  name : string;
  value : Q;
}.

(** [Array.from({ length }, mapFn)]: calls [mapFn] on the indices
    [0 .. length-1] in increasing order and collects the results. *)
Definition Array_from {A} (length : N) (mapFn : N → A) : list A :=
  map (λ k, mapFn (N.of_nat k)) (seq 0 (N.to_nat length)).

(** [random i] is what [Math.random()] returns in the call made for
    index [i]. *)
Definition generateTestData (random : N → Q) (size : N) : list Item :=
  Array_from size (λ i,
    {| id := i;
       name := "Item " +:+ pretty i;
       value := (random i * 1000)%Q |}).

(** ** Strategies and result tables *)

Inductive Method := context | redux.

Global Instance Method_eq_dec : EqDecision Method.
Proof. solve_decision. Defined.

(** The template literals [`${size} objects`] and [`Depth ${depth}`]. *)
Definition sizeLabel (size : N) : string := pretty size +:+ " objects".
Definition depthLabel (depth : nat) : string := "Depth " +:+ pretty depth.

(** The object [{ context: {}, redux: {} }] of type
    [Record<string, Record<string, number>>] per strategy. *)
Record Results := mkResults {
  r_context : gmap string (gmap string Q);
  r_redux : gmap string (gmap string Q);
}.

Definition emptyResults : Results :=
  {| r_context := ∅; r_redux := ∅ |}.

(** [results[method]] and [results[method] = t]. *)
Definition table (method : Method) (R : Results) : gmap string (gmap string Q) :=
  match method with
  | context => r_context R
  | redux => r_redux R
  end.

Definition setTable (method : Method) (t : gmap string (gmap string Q))
    (R : Results) : Results :=
  match method with
  | context => {| r_context := t; r_redux := r_redux R |}
  | redux => {| r_context := r_context R; r_redux := t |}
  end.

(** [results[method][sizeKey][depthKey]], [None] when either level is
    missing. *)
Definition cell (method : Method) (sizeKey depthKey : string) (R : Results)
    : option Q :=
  table method R !! sizeKey ≫= λ row, row !! depthKey.

(** Lines 121-124: the two assignments that store one timing. *)
Definition record (method : Method) (size : N) (depth : nat) (time : Q)
    (R : Results) : Results :=
  let R1 :=
    match table method R !! sizeLabel size with
    | None => setTable method (<[sizeLabel size := ∅]> (table method R)) R
    | Some _ => R
    end in
  setTable method
    (alter (λ row, <[depthLabel depth := time]> row) (sizeLabel size)
           (table method R1))
    R1.

(** Number of leaf entries of a table and of the whole matrix. *)
Definition leaves (t : gmap string (gmap string Q)) : nat :=
  map_fold (λ _ row n, size row + n) 0 t.

Definition populated (R : Results) : nat :=
  leaves (r_context R) + leaves (r_redux R).

(** ** Propagation media (lines 13-51) *)

(** A medium is either a store made by [configureStore] or a mounted
    [ContextProvider]; instances are numbered in creation order. *)
Inductive Medium :=
  | StoreInstance (n : nat)
  | ProviderInstance (n : nat).

Global Instance Medium_eq_dec : EqDecision Medium.
Proof. solve_decision. Defined.

(** The only action of [dataSlice], and its reducer, which returns the
    payload of the action as the new state. *)
Inductive Action := updateData (payload : list Item).

Definition dataSlice_reducer (state : list Item) (action : Action) : list Item :=
  match action with
  | updateData payload => payload
  end.

(** ** The nested component chain (lines 53-96) *)

(** What an effect body calls: the [updateData] obtained from
    [useContext], the [dispatch] obtained from [useDispatch], and the
    [onComplete] prop. *)
Inductive Call :=
  | call_updateData (newData : list Item)
  | call_dispatch (action : Action)
  | call_onComplete (time : Q).

(** What a [NestedChild] renders to: at level 0 a [<div>] together with
    the effect registered by [React.useEffect(..., [])], whose body reads
    [performance.now()] once ([endTime]); above level 0 one more
    [NestedChild]. *)
Inductive Rendered :=
  | UpdateChild (text : string) (effect : Q → list Call)
  | Nested (child : Rendered).

Section BenchmarkApp.
Variables (method : Method) (arraySize : N) (depth : nat).
(** Environment: the draws of [Math.random()] and the reading of
    [performance.now()] taken when the component renders. *)
Variables (random : N → Q) (startTime : Q).

Fixpoint NestedChild (level : nat) : Rendered :=
  match level with
  | 0 =>
      match method with
      | context =>
          let newData := generateTestData random arraySize in
          UpdateChild "Context Update Child" (λ endTime,
            [call_updateData newData;
             call_onComplete (endTime - startTime)%Q])
      | redux =>
          let newData := generateTestData random arraySize in
          UpdateChild "Redux Update Child" (λ endTime,
            [call_dispatch (updateData newData);
             call_onComplete (endTime - startTime)%Q])
      end
  | S level' => Nested (NestedChild level')
  end.

Definition BenchmarkApp : Rendered := NestedChild depth.
End BenchmarkApp.


(** The effects registered in a rendered tree, innermost first. *)
Fixpoint effects (t : Rendered) : list (Q → list Call) :=
  match t with
  | UpdateChild _ effect => [effect]
  | Nested child => effects child
  end.

(** Mounting runs every registered effect once, after the render. *)
Definition mount (t : Rendered) (endTime : Q) : list Call :=
  concat (map (λ effect, effect endTime) (effects t)).



(** ** The runner (lines 98-164) *)

Record Config := mkConfig {
  arraySizes : list N;
  depths : list nat;
}.

(** Lines 108-109. *)
Definition config : Config :=
  {| arraySizes := [10; 100; 1000; 10000; 100000; 1000000]%N;
     depths := [5; 10; 20; 50; 60; 70; 80; 90; 100] |}.

(** A root made by [createRoot(...).render(...)]: the props of its
    [BenchmarkApp], the medium that wraps it, and the [newResults]
    object that its [onComplete] closes over. *)
Record Run := mkRun {
  method : Method;
  arraySize : N;
  depth : nat;
  medium : Medium;
  sweep : nat;
}.

Global Instance Run_eq_dec : EqDecision Run.
Proof. solve_decision. Defined.

Definition spec (r : Run) : Method * N * nat :=
  (method r, arraySize r, depth r).

Record World := mkWorld {
  (** [state.data] of every configured store *)
  stores : list (list Item);
  (** the [data] state of every mounted [ContextProvider] *)
  providers : list (list Item);
  (** the [newResults] objects, one per call of [runBenchmarks] *)
  objs : list Results;
  (** the React state [benchmarkResults]: [None] is the initial literal,
      [Some k] a reference to the object [k] *)
  benchmarkResults : option nat;
  isRunning : bool;
  (** roots whose effect has not run yet *)
  pending : list Run;
}.

(** Module initialisation: line 47 configures the one store, whose slice
    starts from [initialState: []]; the component starts with
    [isRunning = false]. *)
Definition store : Medium := StoreInstance 0.

Definition initWorld : World :=
  {| stores := [[]]; providers := []; objs := [];
     benchmarkResults := None; isRunning := false; pending := [] |}.

Definition setIsRunning (b : bool) (w : World) : World :=
  {| stores := stores w; providers := providers w; objs := objs w;
     benchmarkResults := benchmarkResults w; isRunning := b;
     pending := pending w |}.

Definition setBenchmarkResults (k : nat) (w : World) : World :=
  {| stores := stores w; providers := providers w; objs := objs w;
     benchmarkResults := Some k; isRunning := isRunning w;
     pending := pending w |}.

Definition setObjs (o : list Results) (w : World) : World :=
  {| stores := stores w; providers := providers w; objs := o;
     benchmarkResults := benchmarkResults w; isRunning := isRunning w;
     pending := pending w |}.

Definition setStores (s : list (list Item)) (w : World) : World :=
  {| stores := s; providers := providers w; objs := objs w;
     benchmarkResults := benchmarkResults w; isRunning := isRunning w;
     pending := pending w |}.

Definition setProviders (p : list (list Item)) (w : World) : World :=
  {| stores := stores w; providers := p; objs := objs w;
     benchmarkResults := benchmarkResults w; isRunning := isRunning w;
     pending := pending w |}.

Definition setPending (p : list Run) (w : World) : World :=
  {| stores := stores w; providers := providers w; objs := objs w;
     benchmarkResults := benchmarkResults w; isRunning := isRunning w;
     pending := p |}.

(** Lines 127-133: both key lists are as long as [arraySizes]. *)
Definition allComplete (cfg : Config) (R : Results) : bool :=
  let contextSizes := size (r_context R) in
  let reduxSizes := size (r_redux R) in
  (contextSizes =? length (arraySizes cfg))%nat &&
  (reduxSizes =? length (arraySizes cfg))%nat.

(** Lines 118-137: the handler [completeBenchmark(method, size, depth)]
    of the sweep whose [newResults] is object [k], applied to [time]. *)
Definition completeBenchmark (cfg : Config) (k : nat)
    (method : Method) (size : N) (depth : nat) (time : Q) (w : World) : World :=
  match objs w !! k with
  | None => w
  | Some newResults =>
      let newResults' := record method size depth time newResults in
      let w' := setObjs (<[k := newResults']> (objs w)) w in
      if allComplete cfg newResults'
      then setIsRunning false (setBenchmarkResults k w')
      else w'
  end.

(** [arr.forEach(f)] for a callback with effects on the world. *)
Definition forEach {A} (arr : list A) (f : A → World → World) (w : World)
    : World :=
  foldl (λ w a, f a w) w arr.

(** Lines 141-150: a new root holding a new [ContextProvider], whose
    state starts as [[]], around a [BenchmarkApp] with method "context". *)
Definition renderContext (k : nat) (size : N) (depth : nat) (w : World) : World :=
  let p := length (providers w) in
  setPending (pending w ++ [mkRun context size depth (ProviderInstance p) k])
    (setProviders (providers w ++ [[]]) w).

(** Lines 152-161: a new root holding a [Provider] of the module's
    [store] around a [BenchmarkApp] with method "redux". *)
Definition renderRedux (k : nat) (size : N) (depth : nat) (w : World) : World :=
  setPending (pending w ++ [mkRun redux size depth store k]) w.

(** Lines 111-164. *)
Definition runBenchmarks (cfg : Config) (w : World) : World :=
  let w := setIsRunning true w in
  let k := length (objs w) in
  let w := setObjs (objs w ++ [emptyResults]) w in
  forEach (arraySizes cfg) (λ size,
    forEach (depths cfg) (λ depth w,
      renderRedux k size depth (renderContext k size depth w))) w.

(** Lines 168-170: the button ignores clicks while it is disabled. *)
Definition onClick (cfg : Config) (w : World) : World :=
  if isRunning w then w else runBenchmarks cfg w.

(** ** The rendering engine *)

(** The engine's readings for one root: the random draws and the two
    clock readings. *)
Record Env := mkEnv {
  random : N → Q;
  startTime : Q;
  endTime : Q;
}.

Definition elapsed (e : Env) : Q := (endTime e - startTime e)%Q.

(** Carrying out one call of an effect of the root [r]. *)
Definition perform (cfg : Config) (r : Run) (w : World) (c : Call) : World :=
  match c, medium r with
  | call_updateData newData, ProviderInstance p =>
      setProviders (<[p := newData]> (providers w)) w
  | call_dispatch action, StoreInstance s =>
      setStores (alter (λ state, dataSlice_reducer state action) s (stores w)) w
  | call_onComplete time, _ =>
      completeBenchmark cfg (sweep r) (method r) (arraySize r) (depth r) time w
  | _, _ => w
  end.

(** The engine renders the pending root [r] and runs its effects. *)
Definition flush (cfg : Config) (r : Run) (e : Env) (w : World) : option World :=
  if decide (r ∈ pending w) then
    let tree := BenchmarkApp (method r) (arraySize r) (depth r)
                             (random e) (startTime e) in
    Some (foldl (perform cfg r)
                (setPending (filter (λ r', r' ≠ r) (pending w)) w)
                (mount tree (endTime e)))
  else None.

(** A schedule names the roots in the order the engine completes them. *)
Fixpoint flushAll (cfg : Config) (sched : list (Run * Env)) (w : World)
    : option World :=
  match sched with
  | [] => Some w
  | (r, e) :: sched' =>
      match flush cfg r e w with
      | Some w' => flushAll cfg sched' w'
      | None => None
      end
  end.

(** ** Vocabulary for the statements *)

(** The roots that one call of [runBenchmarks] adds to the pending ones. *)
Definition issued (cfg : Config) (w : World) : list Run :=
  drop (length (pending w)) (pending (runBenchmarks cfg w)).

(** The cross product of both strategies with two lists, in the order of
    the two nested [forEach] loops. *)
Definition crossProduct (sizes : list N) (depths : list nat)
    : list (Method * N * nat) :=
  size ← sizes; depth ← depths; [(context, size, depth); (redux, size, depth)].

(** The roots made by the inner and by the outer loop, when the next
    [ContextProvider] to be mounted is number [p]. *)
Fixpoint innerRuns (k : nat) (size : N) (p : nat) (depths : list nat) : list Run :=
  match depths with
  | [] => []
  | depth :: depths' =>
      mkRun context size depth (ProviderInstance p) k
      :: mkRun redux size depth store k
      :: innerRuns k size (S p) depths'
  end.

Fixpoint outerRuns (k : nat) (p : nat) (sizes : list N) (depths : list nat)
    : list Run :=
  match sizes with
  | [] => []
  | size :: sizes' =>
      innerRuns k size p depths
      ++ outerRuns k (p + length depths) sizes' depths
  end.

(** The matrix after the handlers of a schedule have run in order. *)
Definition recordRun (R : Results) (c : Run * Env) : Results :=
  record (method c.1) (arraySize c.1) (depth c.1) (elapsed c.2) R.

Definition recordAll (sched : list (Run * Env)) (R : Results) : Results :=
  foldl recordRun R sched.

(** The size labels of the configured sizes. *)
Definition sizeLabels (cfg : Config) : gset string :=
  list_to_set (sizeLabel <$> arraySizes cfg).

(** The reduced matrix: sizes 10 and 100, depths 5 and 10. *)
Definition reduced : Config :=
  {| arraySizes := [10; 100]%N; depths := [5; 10] |}.

(** Readings of an engine that takes one millisecond per run. *)
Definition unitEnv : Env :=
  {| random := λ _, 1 # 2; startTime := 0; endTime := 1 |}.

Definition timed (runs : list Run) : list (Run * Env) :=
  (λ r, (r, unitEnv)) <$> runs.

(** The engine completes the depth-5 runs of a sweep first, in issue
    order. *)
Definition depth5First (cfg : Config) : list (Run * Env) :=
  timed (filter (λ r, depth r = 5) (issued cfg initWorld)).

(** The engine completes the runs of a sweep in the reverse of the order
    in which they were issued. *)
Definition reverseOrder (cfg : Config) : list (Run * Env) :=
  timed (reverse (issued cfg initWorld)).

(** The update call of each strategy. *)
Definition updateCall (m : Method) (newData : list Item) : Call :=
  match m with
  | context => call_updateData newData
  | redux => call_dispatch (updateData newData)
  end.

(** The running flag and the published reference after the handlers of
    a schedule have run in order on the object [k]. *)
Fixpoint runningAfter (cfg : Config) (sched : list (Run * Env))
    (R : Results) (running : bool) : bool :=
  match sched with
  | [] => running
  | c :: sched' =>
      runningAfter cfg sched' (recordRun R c)
        (if allComplete cfg (recordRun R c) then false else running)
  end.

Fixpoint publishedAfter (cfg : Config) (k : nat) (sched : list (Run * Env))
    (R : Results) (published : option nat) : option nat :=
  match sched with
  | [] => published
  | c :: sched' =>
      publishedAfter cfg k sched' (recordRun R c)
        (if allComplete cfg (recordRun R c) then Some k else published)
  end.

(** How many of the runs are wrapped in the medium [med]. *)
Definition uses (med : Medium) (runs : list Run) : nat :=
  length (filter (λ r, medium r = med) runs).

(** Every run has a medium of its own. *)
Definition mediaIsolated (runs : list Run) : Prop :=
  ∀ r1 r2, r1 ∈ runs → r2 ∈ runs → r1 ≠ r2 → medium r1 ≠ medium r2.

(** ** The table rows (lines 193-211 and 230-248) *)

(** The four cells of a table row: [depthResults["Depth 5"]],
    [["Depth 10"]], [["Depth 20"]] and [["Depth 50"]]; [None] is the
    [undefined] on which [?.toFixed(2)] is not called. *)
Definition tableRow (depthResults : gmap string Q) : list (option Q) :=
  [depthResults !! "Depth 5"; depthResults !! "Depth 10";
   depthResults !! "Depth 20"; depthResults !! "Depth 50"].

(** * Properties *)

(** ** Payload generator *)

Lemma Array_from_length {A} (len : N) (mapFn : N → A) :
  length (Array_from len mapFn) = N.to_nat len.
Proof. unfold Array_from. by rewrite length_map, length_seq. Qed.

Lemma Array_from_lookup {A} (len : N) (mapFn : N → A) (i : N) :
  (i < len)%N → Array_from len mapFn !! N.to_nat i = Some (mapFn i).
Proof.
  intros Hi. unfold Array_from.
  rewrite list_lookup_fmap, lookup_seq_lt by lia.
  simpl. by rewrite N2Nat.id.
Qed.

Lemma generateTestData_ids (random : N → Q) (size : N) :
  map id (generateTestData random size)
  = map N.of_nat (seq 0 (N.to_nat size)).
Proof.
  unfold generateTestData, Array_from. rewrite map_map. done.
Qed.

(** C4. For every size [s] the generator returns exactly [s] records;
    the record at position [i] has id [i], name "Item " followed by [i]
    and, for draws of [Math.random()] in [0, 1), a value in [0, 1000);
    the ids are exactly [0 .. s-1], without repeats. *)
Theorem generateTestData_payload (random : N → Q) (size : N) :
  (∀ i, (0 <= random i < 1)%Q) →
  length (generateTestData random size) = N.to_nat size ∧
  (∀ i : N, (i < size)%N →
     ∃ it, generateTestData random size !! N.to_nat i = Some it ∧
           id it = i ∧ name it = "Item " +:+ pretty i ∧
           (0 <= value it < 1000)%Q) ∧
  NoDup (map id (generateTestData random size)) ∧
  (∀ n : N, n ∈ map id (generateTestData random size) ↔ (n < size)%N).
Proof.
  intros Hrandom. split; [|split; [|split]].
  - apply Array_from_length.
  - intros i Hi. eexists. split.
    + unfold generateTestData. by apply Array_from_lookup.
    + simpl. repeat split; try done; destruct (Hrandom i); lra.
  - rewrite generateTestData_ids.
    apply (NoDup_fmap_2 N.of_nat), NoDup_seq.
  - intros n. rewrite generateTestData_ids. split.
    + intros (k & -> & Hk)%(list_elem_of_fmap_1 N.of_nat).
      apply elem_of_seq in Hk. lia.
    + intros Hn. apply list_elem_of_fmap. exists (N.to_nat n).
      split; [by rewrite N2Nat.id|]. apply elem_of_seq. lia.
Qed.

Lemma generateTestData_payload_witness :
  (∀ i : N, (0 <= (λ _ : N, 1 # 2) i < 1)%Q) ∧
  length (generateTestData (λ _, 1 # 2) 3) = 3 ∧
  NoDup (map id (generateTestData (λ _, 1 # 2) 3)).
Proof.
  assert (Hrandom : ∀ i : N, (0 <= (λ _ : N, 1 # 2) i < 1)%Q)
    by (intros _; split; reflexivity || discriminate).
  split; [exact Hrandom|].
  destruct (generateTestData_payload (λ _, 1 # 2) 3 Hrandom)
    as (Hlength & _ & Hnodup & _).
  split; [exact Hlength|exact Hnodup].
Defined.

(** ** The nested component chain *)

Lemma effects_NestedChild m size random start (level : nat) :
  effects (NestedChild m size random start level)
  = effects (NestedChild m size random start 0).
Proof. induction level as [|level IH]; [done|]. simpl. exact IH. Qed.


Lemma mount_BenchmarkApp m size depth random start finish :
  mount (BenchmarkApp m size depth random start) finish
  = match m with
    | context =>
        [call_updateData (generateTestData random size);
         call_onComplete (finish - start)%Q]
    | redux =>
        [call_dispatch (updateData (generateTestData random size));
         call_onComplete (finish - start)%Q]
    end.
Proof.
  unfold mount, BenchmarkApp. rewrite effects_NestedChild.
  by destruct m.
Qed.


(** ** The aggregation handler *)

Lemma table_setTable m m' t R :
  table m' (setTable m t R) = if decide (m' = m) then t else table m' R.
Proof. by destruct m, m'. Qed.

(** The two assignments together: the row of the size label, created
    empty when missing, gets the depth entry. *)
Lemma table_record m size depth time R m' :
  table m' (record m size depth time R)
  = if decide (m' = m)
    then <[sizeLabel size :=
             <[depthLabel depth := time]>
               (default ∅ (table m R !! sizeLabel size))]> (table m R)
    else table m' R.
Proof.
  unfold record.
  destruct (table m R !! sizeLabel size) as [row|] eqn:Hrow.
  - rewrite table_setTable. case_decide; [|done].
    apply map_eq. intros key.
    destruct (decide (key = sizeLabel size)) as [->|Hne].
    + by rewrite lookup_alter_eq, lookup_insert_eq, Hrow.
    + by rewrite lookup_alter_ne, lookup_insert_ne by congruence.
  - rewrite !table_setTable. rewrite (decide_True (P := m = m)) by done.
    case_decide; [|done].
    apply map_eq. intros key.
    destruct (decide (key = sizeLabel size)) as [->|Hne].
    + by rewrite lookup_alter_eq, !lookup_insert_eq.
    + by rewrite lookup_alter_ne, !lookup_insert_ne by congruence.
Qed.

Lemma cell_record m size depth time R m' sizeKey depthKey :
  cell m' sizeKey depthKey (record m size depth time R)
  = if decide (m' = m ∧ sizeKey = sizeLabel size ∧ depthKey = depthLabel depth)
    then Some time
    else cell m' sizeKey depthKey R.
Proof.
  unfold cell. rewrite table_record.
  destruct (decide (m' = m)) as [->|Hm]; [|by rewrite decide_False by tauto].
  destruct (decide (sizeKey = sizeLabel size)) as [->|Hs].
  - rewrite lookup_insert_eq. simpl.
    destruct (decide (depthKey = depthLabel depth)) as [->|Hd].
    + by rewrite lookup_insert_eq, decide_True.
    + rewrite lookup_insert_ne, decide_False by (congruence || tauto).
      by destruct (table m R !! sizeLabel size).
  - by rewrite lookup_insert_ne, decide_False by (congruence || tauto).
Qed.

Lemma objs_completeBenchmark cfg k m size depth time w R :
  objs w !! k = Some R →
  objs (completeBenchmark cfg k m size depth time w)
  = <[k := record m size depth time R]> (objs w).
Proof.
  intros Hk. unfold completeBenchmark. rewrite Hk.
  by destruct (allComplete cfg _).
Qed.

(** C10. One application of the handler of [completeBenchmark] to a time
    changes, in its [newResults] object, the cell of its own strategy,
    size label and depth label to that time (creating the row when
    missing) and no other cell; other objects are untouched; a second
    time for the same key replaces the first. *)
Theorem completeBenchmark_frame
    (cfg : Config) (k : nat) (m : Method) (size : N) (depth : nat)
    (time time2 : Q) (w : World) (R : Results) :
  objs w !! k = Some R →
  let w' := completeBenchmark cfg k m size depth time w in
  (∃ R', objs w' !! k = Some R' ∧
     cell m (sizeLabel size) (depthLabel depth) R' = Some time ∧
     ∀ m' sizeKey depthKey,
       (m', sizeKey, depthKey) ≠ (m, sizeLabel size, depthLabel depth) →
       cell m' sizeKey depthKey R' = cell m' sizeKey depthKey R) ∧
  (∀ k', k' ≠ k → objs w' !! k' = objs w !! k') ∧
  (∃ R'', objs (completeBenchmark cfg k m size depth time2 w') !! k = Some R'' ∧
     cell m (sizeLabel size) (depthLabel depth) R'' = Some time2).
Proof.
  intros Hk w'. subst w'.
  assert (Hlt : k < length (objs w)) by by eapply lookup_lt_Some.
  pose proof (objs_completeBenchmark cfg k m size depth time w R Hk) as Hobjs.
  assert (Hk' : objs (completeBenchmark cfg k m size depth time w) !! k
                = Some (record m size depth time R)).
  { by rewrite Hobjs, list_lookup_insert_eq. }
  split; [|split].
  - eexists. split; [exact Hk'|]. split.
    + by rewrite cell_record, decide_True.
    + intros m' sizeKey depthKey Hne. rewrite cell_record.
      rewrite decide_False; [done|]. intros (-> & -> & ->). done.
  - intros k' Hne. by rewrite Hobjs, list_lookup_insert_ne.
  - eexists. split.
    + erewrite objs_completeBenchmark by exact Hk'.
      apply list_lookup_insert_eq. by rewrite Hobjs, length_insert.
    + by rewrite cell_record, decide_True.
Qed.

Lemma completeBenchmark_frame_witness :
  objs (runBenchmarks reduced initWorld) !! 0 = Some emptyResults ∧
  ∃ R', objs (completeBenchmark reduced 0 redux 10 5 1
                (runBenchmarks reduced initWorld)) !! 0 = Some R' ∧
        cell redux (sizeLabel 10) (depthLabel 5) R' = Some 1%Q.
Proof.
  assert (Hk : objs (runBenchmarks reduced initWorld) !! 0 = Some emptyResults)
    by reflexivity.
  split; [exact Hk|].
  destruct (completeBenchmark_frame reduced 0 redux 10 5 1 2
              (runBenchmarks reduced initWorld) emptyResults Hk)
    as [(R' & Hobj & Hcell & _) _].
  exists R'. split; [exact Hobj|exact Hcell].
Defined.

(** ** Issuing the runs *)

Lemma forEach_cons {A} (a : A) (arr : list A) f w :
  forEach (a :: arr) f w = forEach arr f (f a w).
Proof. done. Qed.

Lemma forEach_inner k size depths w :
  forEach depths (λ depth w,
    renderRedux k size depth (renderContext k size depth w)) w
  = setPending (pending w ++ innerRuns k size (length (providers w)) depths)
      (setProviders (providers w ++ replicate (length depths) []) w).
Proof.
  revert w. induction depths as [|depth depths IH]; intros w.
  - destruct w. unfold forEach, setPending, setProviders. simpl.
    by rewrite !app_nil_r.
  - rewrite forEach_cons, IH. unfold setPending, setProviders. simpl.
    rewrite length_app, Nat.add_1_r. simpl.
    by rewrite <- !app_assoc.
Qed.

Lemma forEach_outer k sizes depths w :
  forEach sizes (λ size,
    forEach depths (λ depth w,
      renderRedux k size depth (renderContext k size depth w))) w
  = setPending (pending w ++ outerRuns k (length (providers w)) sizes depths)
      (setProviders
         (providers w ++ replicate (length sizes * length depths) []) w).
Proof.
  revert w. induction sizes as [|size sizes IH]; intros w.
  - destruct w. unfold forEach, setPending, setProviders. simpl.
    by rewrite !app_nil_r.
  - rewrite forEach_cons, IH, forEach_inner.
    unfold setPending, setProviders. simpl.
    rewrite length_app, length_replicate, replicate_add.
    by rewrite <- !app_assoc.
Qed.

Lemma runBenchmarks_eq cfg w :
  runBenchmarks cfg w
  = {| stores := stores w;
       providers := providers w
         ++ replicate (length (arraySizes cfg) * length (depths cfg)) [];
       objs := objs w ++ [emptyResults];
       benchmarkResults := benchmarkResults w;
       isRunning := true;
       pending := pending w
         ++ outerRuns (length (objs w)) (length (providers w))
                      (arraySizes cfg) (depths cfg) |}.
Proof. unfold runBenchmarks. by rewrite forEach_outer. Qed.

Lemma issued_eq cfg w :
  issued cfg w
  = outerRuns (length (objs w)) (length (providers w))
              (arraySizes cfg) (depths cfg).
Proof.
  unfold issued. rewrite runBenchmarks_eq. simpl.
  by rewrite drop_app_length.
Qed.

Lemma pending_runBenchmarks cfg w :
  pending (runBenchmarks cfg w) = pending w ++ issued cfg w.
Proof. by rewrite issued_eq, runBenchmarks_eq. Qed.

Lemma spec_innerRuns k size p depths :
  spec <$> innerRuns k size p depths
  = depth ← depths; [(context, size, depth); (redux, size, depth)].
Proof.
  revert p. induction depths as [|depth depths IH]; intros p; [done|].
  simpl. by rewrite IH.
Qed.

Lemma spec_outerRuns k p sizes depths :
  spec <$> outerRuns k p sizes depths = crossProduct sizes depths.
Proof.
  revert p. induction sizes as [|size sizes IH]; intros p; [done|].
  simpl. by rewrite fmap_app, IH, spec_innerRuns.
Qed.

Lemma elem_of_strategies (c : Method * N * nat) size depth :
  c ∈ [(context, size, depth); (redux, size, depth)]
  ↔ c.1.2 = size ∧ c.2 = depth.
Proof.
  rewrite !elem_of_cons, elem_of_nil. destruct c as [[[] s] d]; simpl.
  - split; [intros [[= -> ->]|[[=]|[]]]; done|]. intros [-> ->]. by left.
  - split; [intros [[=]|[[= -> ->]|[]]]; done|]. intros [-> ->]. right. by left.
Qed.

Lemma elem_of_crossProduct sizes depths m size depth :
  (m, size, depth) ∈ crossProduct sizes depths ↔ size ∈ sizes ∧ depth ∈ depths.
Proof.
  unfold crossProduct. rewrite list_elem_of_bind. split.
  - intros (size' & (depth' & [Hs Hd]%elem_of_strategies & Hin)%list_elem_of_bind
            & Hin').
    simpl in *. by subst.
  - intros [Hs Hd]. exists size. split; [|done].
    apply list_elem_of_bind. exists depth. split; [|done].
    by apply elem_of_strategies.
Qed.

Lemma NoDup_crossProduct sizes depths :
  NoDup sizes → NoDup depths → NoDup (crossProduct sizes depths).
Proof.
  intros Hsizes Hdepths. unfold crossProduct.
  apply NoDup_bind; [| |done].
  - intros size1 size2 c _ _
      (d1 & [Hc1 _]%elem_of_strategies & _)%list_elem_of_bind
      (d2 & [Hc2 _]%elem_of_strategies & _)%list_elem_of_bind.
    congruence.
  - intros size _. apply NoDup_bind; [| |done].
    + intros d1 d2 c _ _ [_ Hc1]%elem_of_strategies [_ Hc2]%elem_of_strategies.
      congruence.
    + intros depth _. apply NoDup_cons. split; [|apply NoDup_singleton].
      rewrite list_elem_of_singleton. discriminate.
Qed.

(** C5. One call of [runBenchmarks] adds exactly one root for every
    triple of a strategy, a size in [10; 100; 1000; 10000; 100000;
    1000000] and a depth in [5; 10; 20; 50; 60; 70; 80; 90; 100]: 108
    roots, no triple twice, no triple missing. *)
Theorem runBenchmarks_issues_cross_product (w : World) :
  pending (runBenchmarks config w) = pending w ++ issued config w ∧
  length (issued config w) = 2 * 6 * 9 ∧
  NoDup (spec <$> issued config w) ∧
  ∀ (m : Method) (size : N) (depth : nat),
    (m, size, depth) ∈ spec <$> issued config w
    ↔ size ∈ [10; 100; 1000; 10000; 100000; 1000000]%N
      ∧ depth ∈ [5; 10; 20; 50; 60; 70; 80; 90; 100].
Proof.
  split; [apply pending_runBenchmarks|].
  assert (Hspec : spec <$> issued config w
                  = crossProduct (arraySizes config) (depths config)).
  { by rewrite issued_eq, spec_outerRuns. }
  split; [|split].
  - rewrite <- (length_fmap spec), Hspec. reflexivity.
  - rewrite Hspec. apply NoDup_crossProduct; compute_done.
  - intros m size depth. rewrite Hspec. apply elem_of_crossProduct.
Qed.

(** ** Which medium a run uses *)

Lemma uses_cons med r runs :
  uses med (r :: runs)
  = (if decide (medium r = med) then 1 else 0) + uses med runs.
Proof. unfold uses. rewrite filter_cons. by case_decide. Qed.

Lemma uses_app med runs1 runs2 :
  uses med (runs1 ++ runs2) = uses med runs1 + uses med runs2.
Proof. unfold uses. by rewrite filter_app, length_app. Qed.

Lemma uses_innerRuns_provider k size p depths q :
  uses (ProviderInstance q) (innerRuns k size p depths)
  = if decide (p ≤ q < p + length depths) then 1 else 0.
Proof.
  revert p. induction depths as [|depth depths IH]; intros p.
  - simpl. by rewrite decide_False by lia.
  - simpl innerRuns. rewrite !uses_cons, IH. simpl.
    destruct (decide (p = q)) as [->|Hpq];
      [rewrite (decide_True (P := _ = _)) by done
      |rewrite (decide_False (P := _ = _)) by congruence];
      repeat case_decide; lia.
Qed.

Lemma uses_outerRuns_provider k p sizes depths q :
  uses (ProviderInstance q) (outerRuns k p sizes depths)
  = if decide (p ≤ q < p + length sizes * length depths) then 1 else 0.
Proof.
  revert p. induction sizes as [|size sizes IH]; intros p.
  - simpl. by rewrite decide_False by lia.
  - simpl outerRuns. rewrite uses_app, uses_innerRuns_provider, IH. simpl.
    repeat case_decide; lia.
Qed.

Lemma media_innerRuns k size p depths r :
  r ∈ innerRuns k size p depths →
  match method r with
  | context => ∃ q, medium r = ProviderInstance q ∧ p ≤ q < p + length depths
  | redux => medium r = store
  end.
Proof.
  revert p. induction depths as [|depth depths IH]; intros p; simpl.
  - by intros ?%elem_of_nil.
  - rewrite !elem_of_cons. intros [->|[->|Hr]]; simpl; [|done|].
    + exists p. split; [done|lia].
    + specialize (IH _ Hr). destruct (method r); [|done].
      destruct IH as (q & ? & ?). exists q. split; [done|lia].
Qed.

Lemma media_outerRuns k p sizes depths r :
  r ∈ outerRuns k p sizes depths →
  match method r with
  | context =>
      ∃ q, medium r = ProviderInstance q
           ∧ p ≤ q < p + length sizes * length depths
  | redux => medium r = store
  end.
Proof.
  revert p. induction sizes as [|size sizes IH]; intros p; simpl.
  - by intros ?%elem_of_nil.
  - rewrite elem_of_app. intros [Hr|Hr].
    + apply media_innerRuns in Hr. destruct (method r); [|done].
      destruct Hr as (q & ? & ?). exists q. split; [done|lia].
    + specialize (IH _ Hr). destruct (method r); [|done].
      destruct IH as (q & ? & ?). exists q. split; [done|lia].
Qed.

Lemma uses_one_isolated med runs r1 r2 :
  uses med runs = 1 → r1 ∈ runs → r2 ∈ runs →
  medium r1 = med → medium r2 = med → r1 = r2.
Proof.
  unfold uses. intros Hone H1 H2 Hm1 Hm2.
  assert (Hin1 : r1 ∈ filter (λ r, medium r = med) runs)
    by by apply list_elem_of_filter.
  assert (Hin2 : r2 ∈ filter (λ r, medium r = med) runs)
    by by apply list_elem_of_filter.
  destruct (filter (λ r, medium r = med) runs) as [|r [|r' l]]; try done.
  apply list_elem_of_singleton in Hin1, Hin2. congruence.
Qed.

(** C1, as the code has it. Every scoped run is wrapped in a provider
    instance that this sweep mounts ([p] is not below the number of
    providers mounted before), that starts with empty data, and that is
    the medium of no other run of the sweep; every broadcast run is
    wrapped in the one store of the module. *)
Theorem issued_media (cfg : Config) (w : World) :
  (∀ r, r ∈ issued cfg w → method r = context →
     ∃ p, medium r = ProviderInstance p ∧
          (length (providers w) ≤ p)%nat ∧
          providers (runBenchmarks cfg w) !! p = Some [] ∧
          uses (medium r) (issued cfg w) = 1) ∧
  (∀ r1 r2, r1 ∈ issued cfg w → r2 ∈ issued cfg w → r1 ≠ r2 →
     method r1 = context → medium r1 ≠ medium r2) ∧
  (∀ r, r ∈ issued cfg w → method r = redux → medium r = store).
Proof.
  rewrite issued_eq. rewrite runBenchmarks_eq. simpl.
  assert (Hctx : ∀ r,
    r ∈ outerRuns (length (objs w)) (length (providers w))
                  (arraySizes cfg) (depths cfg) →
    method r = context →
    ∃ p, medium r = ProviderInstance p ∧
         (length (providers w) ≤ p
           < length (providers w)
             + length (arraySizes cfg) * length (depths cfg))%nat ∧
         uses (medium r)
           (outerRuns (length (objs w)) (length (providers w))
                      (arraySizes cfg) (depths cfg)) = 1).
  { intros r Hr Hm. apply media_outerRuns in Hr. rewrite Hm in Hr.
    destruct Hr as (q & Hq & Hrange). exists q. split; [done|].
    split; [done|].
    by rewrite Hq, uses_outerRuns_provider, decide_True. }
  split; [|split].
  - intros r Hr Hm. destruct (Hctx r Hr Hm) as (p & Hp & Hrange & Hone).
    exists p. split; [done|]. split; [lia|]. split; [|done].
    rewrite lookup_app_r by lia. apply lookup_replicate. split; [done|lia].
  - intros r1 r2 Hr1 Hr2 Hne Hm Heq.
    destruct (Hctx r1 Hr1 Hm) as (p & Hp & Hrange & Hone).
    apply Hne. by eapply uses_one_isolated.
  - intros r Hr Hm. apply media_outerRuns in Hr. by rewrite Hm in Hr.
Qed.

(** C1, as stated, fails: the broadcast runs for (10, 5) and (10, 10)
    are different runs of one sweep wrapped in the same store. *)
Lemma broadcast_runs_share_store : ¬ mediaIsolated (issued config initWorld).
Proof.
  intros Hiso.
  apply (Hiso (mkRun redux 10 5 store 0) (mkRun redux 10 10 store 0));
    [compute_done|compute_done|discriminate|reflexivity].
Qed.

(** ** Labels *)

Lemma string_length_app (s1 s2 : string) :
  String.length (s1 +:+ s2) = String.length s1 + String.length s2.
Proof. induction s1 as [|a s1 IH]; simpl; [done|]. by rewrite IH. Qed.

Lemma string_app_inj_r (s1 s2 t : string) : s1 +:+ t = s2 +:+ t → s1 = s2.
Proof.
  revert s2. induction s1 as [|a s1 IH]; intros [|b s2] Heq; [done|..].
  - apply (f_equal String.length) in Heq.
    rewrite !string_length_app in Heq. simpl in Heq. lia.
  - apply (f_equal String.length) in Heq.
    rewrite !string_length_app in Heq. simpl in Heq. lia.
  - injection Heq as -> Heq. f_equal. by apply IH.
Qed.

Global Instance sizeLabel_inj : Inj (=) (=) sizeLabel.
Proof.
  intros s1 s2 Heq. unfold sizeLabel in Heq.
  by apply string_app_inj_r, (inj pretty) in Heq.
Qed.

Global Instance depthLabel_inj : Inj (=) (=) depthLabel.
Proof.
  intros d1 d2 Heq. unfold depthLabel in Heq.
  by apply (inj (String.app "Depth ")), (inj pretty) in Heq.
Qed.

(** ** One completion *)

Lemma mount_BenchmarkApp_updateCall m size depth random start finish :
  mount (BenchmarkApp m size depth random start) finish
  = [updateCall m (generateTestData random size);
     call_onComplete (finish - start)%Q].
Proof. rewrite mount_BenchmarkApp. by destruct m. Qed.

Lemma perform_updateCall_fields cfg r w m newData :
  let w' := perform cfg r w (updateCall m newData) in
  objs w' = objs w ∧ pending w' = pending w ∧
  isRunning w' = isRunning w ∧ benchmarkResults w' = benchmarkResults w.
Proof. unfold perform. by destruct m, (medium r). Qed.

Lemma completeBenchmark_pending cfg k m size depth time w :
  pending (completeBenchmark cfg k m size depth time w) = pending w.
Proof.
  unfold completeBenchmark. destruct (objs w !! k); [|done].
  by destruct (allComplete cfg _).
Qed.

Lemma completeBenchmark_state cfg k m size depth time w R :
  objs w !! k = Some R →
  let done := allComplete cfg (record m size depth time R) in
  let w' := completeBenchmark cfg k m size depth time w in
  isRunning w' = (if done then false else isRunning w) ∧
  benchmarkResults w' = (if done then Some k else benchmarkResults w).
Proof.
  intros Hk. simpl. unfold completeBenchmark. rewrite Hk.
  by destruct (allComplete cfg _).
Qed.

Lemma flush_pending cfg r e w w' :
  flush cfg r e w = Some w' →
  r ∈ pending w ∧ pending w' = filter (λ r', r' ≠ r) (pending w).
Proof.
  unfold flush. case_decide as Hr; [|done]. intros [= <-].
  split; [done|]. rewrite mount_BenchmarkApp_updateCall. simpl.
  rewrite completeBenchmark_pending.
  by rewrite (proj1 (proj2 (perform_updateCall_fields _ _ _ _ _))).
Qed.

Lemma flush_fields cfg r e w R :
  r ∈ pending w → objs w !! sweep r = Some R →
  ∃ w', flush cfg r e w = Some w' ∧
    objs w' = <[sweep r := recordRun R (r, e)]> (objs w) ∧
    isRunning w'
      = (if allComplete cfg (recordRun R (r, e)) then false else isRunning w) ∧
    benchmarkResults w'
      = (if allComplete cfg (recordRun R (r, e)) then Some (sweep r)
         else benchmarkResults w).
Proof.
  intros Hr Hk. unfold flush. rewrite decide_True by done.
  eexists. split; [done|].
  rewrite mount_BenchmarkApp_updateCall. simpl.
  set (w1 := perform cfg r _ _).
  destruct (perform_updateCall_fields cfg r
              (setPending (filter (λ r', r' ≠ r) (pending w)) w)
              (method r) (generateTestData (random e) (arraySize r)))
    as (Hobjs & _ & Hrun & Hpub).
  fold w1 in Hobjs, Hrun, Hpub. simpl in Hobjs, Hrun, Hpub.
  assert (Hk1 : objs w1 !! sweep r = Some R) by by rewrite Hobjs.
  destruct (completeBenchmark_state cfg (sweep r) (method r) (arraySize r)
              (depth r) (elapsed e) w1 R Hk1) as [Hrun' Hpub'].
  rewrite Hrun in Hrun'. rewrite Hpub in Hpub'.
  split; [|split; [exact Hrun'|exact Hpub']].
  rewrite <- Hobjs. exact (objs_completeBenchmark _ _ _ _ _ _ _ R Hk1).
Qed.

(** ** Schedules *)

Lemma NoDup_fmap_inj_on {A B} (f : A → B) (l : list A) (x y : A) :
  NoDup (f <$> l) → x ∈ l → y ∈ l → f x = f y → x = y.
Proof.
  induction l as [|a l IH]; [by intros _ ?%elem_of_nil|].
  rewrite fmap_cons, NoDup_cons. intros [Ha Hl].
  rewrite !elem_of_cons. intros [->|Hx] [->|Hy] Hf; [done|..|by apply IH].
  - destruct Ha. rewrite Hf. by apply list_elem_of_fmap_2.
  - destruct Ha. rewrite <- Hf. by apply list_elem_of_fmap_2.
Qed.

Lemma filter_all {A} (P : A → Prop) `{!∀ x, Decision (P x)} (l : list A) :
  (∀ x, x ∈ l → P x) → filter P l = l.
Proof.
  induction l as [|a l IH]; intros HP; [done|].
  rewrite filter_cons_True by (apply HP; left).
  f_equal. apply IH. intros x Hx. apply HP. by right.
Qed.

Lemma flushAll_pending cfg sched w w' :
  flushAll cfg sched w = Some w' →
  NoDup sched.*1 ∧
  (∀ r, r ∈ sched.*1 → r ∈ pending w) ∧
  pending w' = filter (λ r, r ∉ sched.*1) (pending w).
Proof.
  revert w. induction sched as [|[r e] sched IH]; intros w; simpl.
  - intros [= <-]. split; [constructor|]. split; [by intros ? ?%elem_of_nil|].
    symmetry. apply filter_all. intros r _. apply not_elem_of_nil.
  - destruct (flush cfg r e w) as [w1|] eqn:Hflush; [|done].
    apply flush_pending in Hflush as [Hr Hpending]. intros Hall.
    destruct (IH _ Hall) as (Hnodup & Hsub & Hrest).
    rewrite Hpending in Hsub, Hrest.
    split; [|split].
    + apply NoDup_cons. split; [|done].
      intros Hin. apply Hsub, list_elem_of_filter in Hin as [Hne _]. done.
    + intros r' [->|Hin]%elem_of_cons; [done|].
      by apply Hsub, list_elem_of_filter in Hin as [_ ?].
    + rewrite Hrest, list_filter_filter. apply list_filter_iff.
      intros r'. rewrite elem_of_cons. tauto.
Qed.

Lemma flushAll_fields cfg sched w R :
  objs w = [R] →
  (∀ r, r ∈ pending w → sweep r = 0) →
  NoDup sched.*1 →
  (∀ r, r ∈ sched.*1 → r ∈ pending w) →
  ∃ w', flushAll cfg sched w = Some w' ∧
    objs w' = [recordAll sched R] ∧
    isRunning w' = runningAfter cfg sched R (isRunning w) ∧
    benchmarkResults w' = publishedAfter cfg 0 sched R (benchmarkResults w) ∧
    pending w' = filter (λ r, r ∉ sched.*1) (pending w).
Proof.
  revert w R. induction sched as [|[r e] sched IH]; intros w R Hobjs Hsweep.
  - intros _ _. exists w. repeat split; try done.
    symmetry. apply filter_all. intros r _. apply not_elem_of_nil.
  - rewrite fmap_cons, NoDup_cons. simpl. intros [Hr Hnodup] Hsub.
    assert (Hin : r ∈ pending w) by (apply Hsub; left).
    assert (Hk : objs w !! sweep r = Some R)
      by by rewrite (Hsweep r Hin), Hobjs.
    destruct (flush_fields cfg r e w R Hin Hk)
      as (w1 & Hflush & Hobjs1 & Hrun1 & Hpub1).
    destruct (flush_pending _ _ _ _ _ Hflush) as [_ Hpending1].
    rewrite (Hsweep r Hin), Hobjs in Hobjs1. simpl in Hobjs1.
    destruct (IH w1 (recordRun R (r, e))) as (w' & Hall & Ho & Hr' & Hp & Hq).
    + done.
    + intros r' Hr'. apply Hsweep. rewrite Hpending1 in Hr'.
      by apply list_elem_of_filter in Hr' as [_ ?].
    + done.
    + intros r' Hr'. rewrite Hpending1. apply list_elem_of_filter.
      split; [|apply Hsub; by right]. by intros ->.
    + exists w'. rewrite Hflush. split; [done|]. split; [done|].
      rewrite Hr', Hp, Hrun1, Hpub1, (Hsweep r Hin).
      split; [done|]. split; [done|].
      rewrite Hq, Hpending1, list_filter_filter. apply list_filter_iff.
      intros r'. rewrite elem_of_cons. tauto.
Qed.

Lemma issued_initWorld cfg :
  runBenchmarks cfg initWorld
  = {| stores := [[]];
       providers := replicate (length (arraySizes cfg) * length (depths cfg)) [];
       objs := [emptyResults];
       benchmarkResults := None;
       isRunning := true;
       pending := issued cfg initWorld |}.
Proof. by rewrite issued_eq, runBenchmarks_eq. Qed.

Lemma sweep_outerRuns k p sizes depths r :
  r ∈ outerRuns k p sizes depths →
  sweep r = k ∧ arraySize r ∈ sizes ∧ depth r ∈ depths.
Proof.
  intros Hr. split.
  - revert p Hr. induction sizes as [|size sizes IH]; intros p; simpl.
    + by intros ?%elem_of_nil.
    + rewrite elem_of_app. intros [Hr|Hr]; [|by eapply IH].
      clear IH. revert p Hr.
      induction depths as [|depth depths IH]; intros p; simpl.
      * by intros ?%elem_of_nil.
      * rewrite !elem_of_cons. intros [->|[->|Hr]]; [done..|by eapply IH].
  - apply (list_elem_of_fmap_2 spec) in Hr. rewrite spec_outerRuns in Hr.
    destruct r as [m size depth med k']. by apply elem_of_crossProduct in Hr.
Qed.

(** A sweep started from the initial world: what a schedule leaves. *)
Lemma flushAll_sweep cfg sched w' :
  flushAll cfg sched (runBenchmarks cfg initWorld) = Some w' →
  NoDup sched.*1 ∧
  (∀ r, r ∈ sched.*1 → r ∈ issued cfg initWorld) ∧
  objs w' = [recordAll sched emptyResults] ∧
  isRunning w' = runningAfter cfg sched emptyResults true ∧
  benchmarkResults w' = publishedAfter cfg 0 sched emptyResults None ∧
  pending w' = filter (λ r, r ∉ sched.*1) (issued cfg initWorld).
Proof.
  intros Hall. destruct (flushAll_pending _ _ _ _ Hall) as (Hnodup & Hsub & _).
  rewrite issued_initWorld in Hsub. simpl in Hsub.
  split; [done|]. split; [done|].
  destruct (flushAll_fields cfg sched (runBenchmarks cfg initWorld) emptyResults)
    as (w'' & Hall' & Hfields);
    [by rewrite issued_initWorld
    |rewrite issued_initWorld; simpl; rewrite issued_eq;
       by intros r [? _]%sweep_outerRuns
    |done
    |by rewrite issued_initWorld|].
  rewrite Hall in Hall'. injection Hall' as <-.
  by rewrite issued_initWorld in Hfields.
Qed.

Lemma flushAll_sweep_Some cfg sched :
  NoDup sched.*1 →
  (∀ r, r ∈ sched.*1 → r ∈ issued cfg initWorld) →
  is_Some (flushAll cfg sched (runBenchmarks cfg initWorld)).
Proof.
  intros Hnodup Hsub.
  destruct (flushAll_fields cfg sched (runBenchmarks cfg initWorld) emptyResults)
    as (w' & Hall & _);
    [by rewrite issued_initWorld
    |rewrite issued_initWorld; simpl; rewrite issued_eq;
       by intros r [? _]%sweep_outerRuns
    |done
    |by rewrite issued_initWorld|].
  by exists w'.
Qed.

(** ** Each run at its own key *)

Lemma recordAll_snoc sched c R :
  recordAll (sched ++ [c]) R = recordRun (recordAll sched R) c.
Proof. unfold recordAll. by rewrite foldl_app. Qed.

Lemma cell_recordAll sched R r e :
  (r, e) ∈ sched →
  (∀ r' e', (r', e') ∈ sched → spec r' = spec r → (r', e') = (r, e)) →
  cell (method r) (sizeLabel (arraySize r)) (depthLabel (depth r))
       (recordAll sched R)
  = Some (elapsed e).
Proof.
  induction sched as [|[r' e'] sched IH] using rev_ind;
    [by intros ?%elem_of_nil|].
  intros Hin Huniq. rewrite recordAll_snoc. unfold recordRun at 1.
  rewrite cell_record. simpl. case_decide as Hkey.
  - destruct Hkey as (Hm & Hs%(inj sizeLabel) & Hd%(inj depthLabel)).
    assert (Heq : (r', e') = (r, e)).
    { apply Huniq; [apply elem_of_app; right; by left|].
      unfold spec. by rewrite Hm, Hs, Hd. }
    by injection Heq as -> ->.
  - apply IH.
    + apply elem_of_app in Hin as [?|Hin]; [done|].
      apply list_elem_of_singleton in Hin. injection Hin as -> ->.
      by destruct Hkey.
    + intros r2 e2 Hin2. apply Huniq, elem_of_app. by left.
Qed.

Lemma NoDup_issued_specs cfg w :
  NoDup (arraySizes cfg) → NoDup (depths cfg) → NoDup (spec <$> issued cfg w).
Proof.
  intros. rewrite issued_eq, spec_outerRuns. by apply NoDup_crossProduct.
Qed.

(** In a schedule of a sweep no triple is completed twice. *)
Lemma schedule_runs_unique cfg sched w' r e r' e' :
  NoDup (arraySizes cfg) → NoDup (depths cfg) →
  flushAll cfg sched (runBenchmarks cfg initWorld) = Some w' →
  (r, e) ∈ sched → (r', e') ∈ sched → spec r' = spec r →
  (r', e') = (r, e).
Proof.
  intros Hsizes Hdepths Hall Hin Hin' Hspec.
  destruct (flushAll_sweep _ _ _ Hall) as (Hnodup & Hsub & _).
  assert (r' = r) as ->.
  { apply (NoDup_fmap_inj_on spec (issued cfg initWorld)); [|..|done].
    - by apply NoDup_issued_specs.
    - apply Hsub. by apply (list_elem_of_fmap_2 fst) in Hin'.
    - apply Hsub. by apply (list_elem_of_fmap_2 fst) in Hin. }
  by apply (NoDup_fmap_inj_on fst sched).
Qed.

(** C6. In a sweep over sizes and depths without repeats, whatever the
    order of the completions: once a run has completed, the cell at its
    own strategy, its own size label and its own depth label holds the
    elapsed time that its own handler received, also after every later
    completion. *)
Theorem own_time_at_own_key
    (cfg : Config) (sched : list (Run * Env)) (w' : World) (r : Run) (e : Env) :
  NoDup (arraySizes cfg) → NoDup (depths cfg) →
  flushAll cfg sched (runBenchmarks cfg initWorld) = Some w' →
  (r, e) ∈ sched →
  ∃ R, objs w' = [R] ∧
    cell (method r) (sizeLabel (arraySize r)) (depthLabel (depth r)) R
    = Some (elapsed e).
Proof.
  intros Hsizes Hdepths Hall Hin.
  destruct (flushAll_sweep _ _ _ Hall) as (_ & _ & Hobjs & _).
  exists (recordAll sched emptyResults). split; [exact Hobjs|].
  apply cell_recordAll; [exact Hin|].
  intros r' e' Hin' Hspec.
  by apply (schedule_runs_unique cfg sched w' r e r' e').
Qed.

Lemma own_time_at_own_key_witness :
  ∃ R,
    objs (default initWorld
            (flushAll reduced (depth5First reduced)
               (runBenchmarks reduced initWorld))) = [R] ∧
    cell redux (sizeLabel 10) (depthLabel 5) R = Some (elapsed unitEnv).
Proof.
  apply (own_time_at_own_key reduced (depth5First reduced) _
           (mkRun redux 10 5 store 0) unitEnv).
  - compute_done.
  - compute_done.
  - vm_compute. reflexivity.
  - apply list_elem_of_fmap. exists (mkRun redux 10 5 store 0).
    split; [reflexivity|compute_done].
Defined.

(** X7. Once nothing is pending, every cell of the cross product is filled. *)
Lemma sweep_fills_every_cell cfg sched w' m size depth :
  NoDup (arraySizes cfg) → NoDup (depths cfg) →
  flushAll cfg sched (runBenchmarks cfg initWorld) = Some w' →
  pending w' = [] →
  size ∈ arraySizes cfg → depth ∈ depths cfg →
  ∃ R, objs w' = [R] ∧
       is_Some (cell m (sizeLabel size) (depthLabel depth) R).
Proof.
  intros Hsizes Hdepths Hall Hpending Hsize Hdepth.
  destruct (flushAll_sweep _ _ _ Hall) as (_ & _ & _ & _ & _ & Hrest).
  assert (Hspec : (m, size, depth) ∈ spec <$> issued cfg initWorld).
  { rewrite issued_eq, spec_outerRuns. by apply elem_of_crossProduct. }
  apply list_elem_of_fmap in Hspec as (r & Hr & Hin).
  assert (Hdone : r ∈ sched.*1).
  { destruct (decide (r ∈ sched.*1)) as [|Hnot]; [done|].
    assert (Hp : r ∈ pending w')
      by (rewrite Hrest; by apply list_elem_of_filter).
    rewrite Hpending in Hp. by apply elem_of_nil in Hp. }
  apply list_elem_of_fmap in Hdone as ([r' e] & -> & Hin').
  destruct (flushAll_sweep _ _ _ Hall) as (_ & _ & Hobjs & _).
  exists (recordAll sched emptyResults). split; [exact Hobjs|].
  injection Hr as -> -> ->. simpl.
  rewrite (cell_recordAll sched emptyResults r' e); [done..|].
  intros r2 e2 Hin2 Hspec.
  by apply (schedule_runs_unique cfg sched w' r' e r2 e2).
Qed.

(** ** The completeness check *)

Lemma dom_table_record m size depth time R m' :
  dom (table m' (record m size depth time R))
  = if decide (m' = m) then {[sizeLabel size]} ∪ dom (table m R)
    else dom (table m' R).
Proof. rewrite table_record. case_decide; [|done]. by rewrite dom_insert_L. Qed.

Lemma dom_recordAll cfg sched R m :
  (∀ r, r ∈ sched.*1 → arraySize r ∈ arraySizes cfg) →
  dom (table m R) ⊆ sizeLabels cfg →
  dom (table m (recordAll sched R)) ⊆ sizeLabels cfg.
Proof.
  induction sched as [|[r e] sched IH] using rev_ind; [done|].
  intros Hsizes HR. rewrite recordAll_snoc. unfold recordRun at 1.
  rewrite dom_table_record. simpl.
  assert (HIH : dom (table m (recordAll sched R)) ⊆ sizeLabels cfg).
  { apply IH; [|done]. intros r' Hr'. apply Hsizes.
    rewrite fmap_app. apply elem_of_app. by left. }
  case_decide as Hm; [|done]. subst m.
  apply union_least; [|done]. apply singleton_subseteq_l.
  unfold sizeLabels. apply elem_of_list_to_set, list_elem_of_fmap_2, Hsizes.
  rewrite fmap_app. apply elem_of_app. right. by left.
Qed.

Lemma size_sizeLabels cfg :
  NoDup (arraySizes cfg) → size (sizeLabels cfg) = length (arraySizes cfg).
Proof.
  intros Hsizes. unfold sizeLabels.
  rewrite size_list_to_set, length_fmap; [done|].
  by apply (NoDup_fmap_2 sizeLabel).
Qed.

Lemma table_full_iff cfg (t : gmap string (gmap string Q)) :
  NoDup (arraySizes cfg) →
  dom t ⊆ sizeLabels cfg →
  size t = length (arraySizes cfg) ↔ dom t = sizeLabels cfg.
Proof.
  intros Hsizes Hsub. rewrite <- size_dom, <- (size_sizeLabels cfg Hsizes).
  split; [|by intros ->].
  intros Hsize. apply set_subseteq_size_eq; [done|]. by rewrite Hsize.
Qed.

Lemma allComplete_iff cfg R :
  NoDup (arraySizes cfg) →
  dom (r_context R) ⊆ sizeLabels cfg →
  dom (r_redux R) ⊆ sizeLabels cfg →
  allComplete cfg R = true
  ↔ dom (r_context R) = sizeLabels cfg ∧ dom (r_redux R) = sizeLabels cfg.
Proof.
  intros Hsizes Hc Hr. unfold allComplete.
  rewrite andb_true_iff, !Nat.eqb_eq.
  by rewrite !table_full_iff.
Qed.

Lemma allComplete_dom cfg R R' :
  dom (r_context R') = dom (r_context R) →
  dom (r_redux R') = dom (r_redux R) →
  allComplete cfg R' = allComplete cfg R.
Proof.
  intros Hc Hr. unfold allComplete.
  by rewrite <- !(size_dom (D := gset string)), Hc, Hr.
Qed.

Lemma complete_after_insertion cfg sched r e w w' :
  NoDup (arraySizes cfg) →
  flushAll cfg sched (runBenchmarks cfg initWorld) = Some w →
  flush cfg r e w = Some w' →
  ∃ R', objs w' = [R'] ∧
    (allComplete cfg R' = true
     ↔ dom (r_context R') = sizeLabels cfg ∧ dom (r_redux R') = sizeLabels cfg) ∧
    isRunning w' = (if allComplete cfg R' then false else isRunning w) ∧
    benchmarkResults w'
    = (if allComplete cfg R' then Some 0 else benchmarkResults w).
Proof.
  intros Hsizes Hall Hflush.
  destruct (flushAll_sweep _ _ _ Hall) as (_ & Hsub & Hobjs & _ & _ & Hpending).
  destruct (flush_pending _ _ _ _ _ Hflush) as [Hr _].
  rewrite Hpending in Hr. apply list_elem_of_filter in Hr as [_ Hr].
  assert (Hin : r ∈ pending w)
    by by apply (flush_pending _ _ _ _ _ Hflush).
  pose proof Hr as Hr'. rewrite issued_eq in Hr'.
  apply sweep_outerRuns in Hr' as (Hsweep & Hsize & _).
  simpl in Hsweep.
  destruct (flush_fields cfg r e w (recordAll sched emptyResults) Hin)
    as (w'' & Hflush' & Hobjs' & Hrun & Hpub).
  { by rewrite Hsweep, Hobjs. }
  rewrite Hflush in Hflush'. injection Hflush' as <-.
  rewrite Hsweep, Hobjs in Hobjs'. simpl in Hobjs'.
  rewrite Hsweep in Hpub.
  eexists. split; [exact Hobjs'|]. split; [|done].
  rewrite <- recordAll_snoc.
  apply allComplete_iff; [done|..].
  - apply (dom_recordAll cfg _ _ context); [|done].
    intros r'. rewrite fmap_app, elem_of_app. simpl.
    intros [Hr'|Heq%list_elem_of_singleton]; [|by subst].
    apply Hsub in Hr'. rewrite issued_eq in Hr'.
    by apply sweep_outerRuns in Hr' as (_ & ? & _).
  - apply (dom_recordAll cfg _ _ redux); [|done].
    intros r'. rewrite fmap_app, elem_of_app. simpl.
    intros [Hr'|Heq%list_elem_of_singleton]; [|by subst].
    apply Hsub in Hr'. rewrite issued_eq in Hr'.
    by apply sweep_outerRuns in Hr' as (_ & ? & _).
Qed.

(** ** Completions that end the sweep early *)

Lemma length_innerRuns k size p depths :
  length (innerRuns k size p depths) = 2 * length depths.
Proof.
  revert p. induction depths as [|depth depths IH]; intros p; [done|].
  simpl. rewrite IH. lia.
Qed.

Lemma length_issued cfg w :
  length (issued cfg w) = 2 * length (arraySizes cfg) * length (depths cfg).
Proof.
  rewrite issued_eq. generalize (length (providers w)).
  induction (arraySizes cfg) as [|size sizes IH]; intros p; [done|].
  simpl. rewrite length_app, length_innerRuns, IH. lia.
Qed.

Lemma onClick_disabled cfg w : isRunning w = true → onClick cfg w = w.
Proof. unfold onClick. by intros ->. Qed.

Lemma onClick_enabled cfg w :
  isRunning w = false →
  pending (onClick cfg w) = pending w ++ issued cfg w.
Proof. unfold onClick. intros ->. apply pending_runBenchmarks. Qed.

(** What is left of a sweep from the initial world after a schedule that
    names issued runs, each once. *)
Lemma sweep_after cfg sched :
  NoDup sched.*1 →
  Forall (λ r, r ∈ issued cfg initWorld) sched.*1 →
  ∃ w', flushAll cfg sched (runBenchmarks cfg initWorld) = Some w' ∧
    objs w' = [recordAll sched emptyResults] ∧
    isRunning w' = runningAfter cfg sched emptyResults true ∧
    benchmarkResults w' = publishedAfter cfg 0 sched emptyResults None ∧
    pending w' = filter (λ r, r ∉ sched.*1) (issued cfg initWorld).
Proof.
  intros Hnodup Hsub. rewrite Forall_forall in Hsub.
  destruct (flushAll_sweep_Some cfg sched Hnodup Hsub) as [w' Hall].
  exists w'. split; [done|].
  by destruct (flushAll_sweep _ _ _ Hall) as (_ & _ & ? & ? & ? & ?).
Qed.

(** C2 on the reduced matrix. When the four depth-5 runs complete first,
    the handler clears the running flag and publishes the matrix although
    only 4 of the 8 cells are filled and 4 runs are still pending. *)
Theorem reduced_sweep_reported_complete_at_4_of_8 :
  length (issued reduced initWorld) = 8 ∧
  ∃ w', flushAll reduced (depth5First reduced) (runBenchmarks reduced initWorld)
        = Some w' ∧
    isRunning w' = false ∧
    benchmarkResults w' = Some 0 ∧
    length (pending w') = 4 ∧
    ∃ R, objs w' = [R] ∧ populated R = 4.
Proof.
  split; [reflexivity|].
  destruct (sweep_after reduced (depth5First reduced))
    as (w' & Hall & Hobjs & Hrun & Hpub & Hpending); [compute_done..|].
  exists w'. split; [done|].
  rewrite Hrun, Hpub, Hpending, Hobjs.
  repeat split; try (vm_compute; reflexivity).
  eexists. split; [done|]. vm_compute. reflexivity.
Qed.

(** C8 on the configured matrix. When the runs complete in the exact
    reverse of the issue order, the 92nd completion (the first one for
    size 10 with strategy "context") makes the handler publish the matrix
    and clear the running flag; 92 of the 108 cells are filled then, 16
    runs are pending, and the cell of ("context", 10, 5) is empty. *)
Theorem reverse_order_reported_complete_at_92_of_108 :
  ∃ w', flushAll config (take 92 (reverseOrder config))
          (runBenchmarks config initWorld) = Some w' ∧
    isRunning w' = false ∧
    benchmarkResults w' = Some 0 ∧
    length (pending w') = 16 ∧
    ∃ R, objs w' = [R] ∧ populated R = 92 ∧
         cell context (sizeLabel 10) (depthLabel 5) R = None.
Proof.
  destruct (sweep_after config (take 92 (reverseOrder config)))
    as (w' & Hall & Hobjs & Hrun & Hpub & Hpending); [compute_done..|].
  exists w'. split; [done|].
  rewrite Hrun, Hpub, Hpending, Hobjs.
  repeat split; try (vm_compute; reflexivity).
  eexists. split; [done|]. split; vm_compute; reflexivity.
Qed.

(** C9 on the configured matrix. When the twelve depth-5 runs complete
    first, the running flag is cleared while 96 runs of the sweep are
    still pending, and a click on the button then starts 108 more. *)
Theorem running_flag_cleared_with_96_pending :
  ∃ w', flushAll config (depth5First config) (runBenchmarks config initWorld)
        = Some w' ∧
    isRunning w' = false ∧
    length (pending w') = 96 ∧
    length (pending (onClick config w')) = 96 + 108.
Proof.
  destruct (sweep_after config (depth5First config))
    as (w' & Hall & Hobjs & Hrun & Hpub & Hpending); [compute_done..|].
  assert (Hrun' : isRunning w' = false) by (rewrite Hrun; vm_compute; reflexivity).
  assert (Hlen : length (pending w') = 96)
    by (rewrite Hpending; vm_compute; reflexivity).
  exists w'. split; [done|]. split; [done|]. split; [done|].
  rewrite onClick_enabled by done.
  rewrite length_app, Hlen, length_issued. reflexivity.
Qed.

(** ** The order of the completions *)

Lemma Results_eq R1 R2 :
  (∀ m, table m R1 = table m R2) → R1 = R2.
Proof.
  intros Heq. destruct R1, R2.
  pose proof (Heq context) as Hc. pose proof (Heq redux) as Hr.
  simpl in Hc, Hr. by subst.
Qed.

(** Two insertions for different triples commute. *)
Lemma record_comm m1 size1 depth1 time1 m2 size2 depth2 time2 R :
  (m1, size1, depth1) ≠ (m2, size2, depth2) →
  record m1 size1 depth1 time1 (record m2 size2 depth2 time2 R)
  = record m2 size2 depth2 time2 (record m1 size1 depth1 time1 R).
Proof.
  intros Hne. apply Results_eq. intros m. rewrite !table_record.
  destruct (decide (m1 = m2)) as [<-|Hm].
  - case_decide; [subst m|done]. rewrite !decide_True by done.
    destruct (decide (size1 = size2)) as [<-|Hsize].
    + assert (Hdepth : depthLabel depth1 ≠ depthLabel depth2)
        by (intros ?%(inj depthLabel); congruence).
      rewrite !lookup_insert_eq, !insert_insert_eq. simpl.
      f_equal. by apply insert_insert_ne.
    + assert (Hlabel : sizeLabel size1 ≠ sizeLabel size2)
        by (intros ?%(inj sizeLabel); congruence).
      rewrite !lookup_insert_ne by done.
      by apply insert_insert_ne.
  - destruct (decide (m = m1)) as [->|Hm1].
    + by rewrite !(decide_False (P := m1 = m2)) by done.
    + destruct (decide (m = m2)) as [->|Hm2]; [|done].
      by rewrite !(decide_False (P := m2 = m1)) by done.
Qed.

(** The matrix after all handlers of a schedule does not depend on the
    order of a schedule in which no triple occurs twice. *)
Lemma recordAll_permutation sched1 sched2 R :
  sched1 ≡ₚ sched2 →
  NoDup ((spec ∘ fst) <$> sched1) →
  recordAll sched1 R = recordAll sched2 R.
Proof.
  intros Hperm. revert R.
  induction Hperm as [|c l1 l2 Hperm IH|c1 c2 l|l1 l2 l3 H12 IH12 H23 IH23];
    intros R Hnodup.
  - done.
  - rewrite fmap_cons, NoDup_cons in Hnodup. apply IH, Hnodup.
  - unfold recordAll. simpl. f_equal. unfold recordRun.
    apply record_comm. rewrite !fmap_cons, !NoDup_cons in Hnodup.
    destruct Hnodup as (Hnot & _). intros Heq.
    apply Hnot, elem_of_cons. left. unfold compose, spec. by rewrite Heq.
  - rewrite IH12 by done. apply IH23. by rewrite <- H12.
Qed.

(** X8. Whatever order the engine completes the runs in, two schedules with
    the same timings leave the same matrix. *)
Lemma final_matrix_order_independent cfg sched1 sched2 w1 w2 :
  NoDup (arraySizes cfg) → NoDup (depths cfg) →
  flushAll cfg sched1 (runBenchmarks cfg initWorld) = Some w1 →
  flushAll cfg sched2 (runBenchmarks cfg initWorld) = Some w2 →
  sched1 ≡ₚ sched2 →
  objs w1 = objs w2.
Proof.
  intros Hsizes Hdepths Hall1 Hall2 Hperm.
  destruct (flushAll_sweep _ _ _ Hall1) as (Hnodup & Hsub & -> & _).
  destruct (flushAll_sweep _ _ _ Hall2) as (_ & _ & -> & _).
  f_equal. apply recordAll_permutation; [done|].
  rewrite list_fmap_compose.
  apply NoDup_fmap_2_strong; [|done].
  intros r r' Hr Hr'. apply (NoDup_fmap_inj_on spec (issued cfg initWorld));
    [by apply NoDup_issued_specs|by apply Hsub..].
Qed.

(** ** A completion updates the medium of its own run *)

Lemma completeBenchmark_media cfg k m size depth time w :
  stores (completeBenchmark cfg k m size depth time w) = stores w ∧
  providers (completeBenchmark cfg k m size depth time w) = providers w.
Proof.
  unfold completeBenchmark. destruct (objs w !! k); [|done].
  by destruct (allComplete cfg _).
Qed.

(** A broadcast run replaces the data of the store it is wrapped in and
    touches no provider; a scoped run replaces the data of its provider
    and touches no store. *)
Lemma flush_updates_own_medium cfg r e w w' :
  flush cfg r e w = Some w' →
  match method r, medium r with
  | redux, StoreInstance s =>
      stores w' = alter (λ _, generateTestData (random e) (arraySize r)) s
                        (stores w)
      ∧ providers w' = providers w
  | context, ProviderInstance p =>
      providers w' = <[p := generateTestData (random e) (arraySize r)]>
                       (providers w)
      ∧ stores w' = stores w
  | _, _ => stores w' = stores w ∧ providers w' = providers w
  end.
Proof.
  unfold flush. case_decide; [|done]. intros [= <-].
  rewrite mount_BenchmarkApp. 
  destruct (method r) eqn:Hm, (medium r) eqn:Hmed; simpl;
    match goal with
    | |- context [completeBenchmark ?c ?k ?m ?s ?d ?t ?w0] =>
        destruct (completeBenchmark_media c k m s d t w0) as [-> ->]
    end;
    unfold perform; rewrite Hmed; done.
Qed.

(** * Further properties of the code *)

(** ** Payloads *)

(** X1. The ids and the names of a payload depend on the size only, not on
    the random draws; the names are pairwise different; size 0 gives the
    empty payload. *)
Theorem generateTestData_shape (random1 random2 : N → Q) (size : N) :
  map id (generateTestData random1 size) = map id (generateTestData random2 size) ∧
  map name (generateTestData random1 size)
  = map name (generateTestData random2 size) ∧
  NoDup (map name (generateTestData random1 size)) ∧
  generateTestData random1 0 = [].
Proof.
  split; [by rewrite !generateTestData_ids|].
  assert (Hnames : ∀ random,
    map name (generateTestData random size)
    = map (λ k, "Item " +:+ pretty (N.of_nat k)) (seq 0 (N.to_nat size))).
  { intros random. unfold generateTestData, Array_from. by rewrite map_map. }
  split; [by rewrite !Hnames|]. split; [|done].
  rewrite Hnames. apply (NoDup_fmap_2_strong _); [|apply NoDup_seq].
  intros k1 k2 _ _ Heq.
  by apply (inj (String.app "Item ")), (inj pretty), (inj N.of_nat) in Heq.
Qed.

(** X2. Whatever the depth of the chain, the one update call carries a
    payload generated for the configured size, of exactly that many
    records, and the reported time is the difference of the two clock
    readings, not negative when the clock did not go back. *)
Theorem BenchmarkApp_payload_and_time
    (m : Method) (size : N) (depth : nat) (random : N → Q) (start finish : Q) :
  (start <= finish)%Q →
  ∃ payload time,
    mount (BenchmarkApp m size depth random start) finish
    = [updateCall m payload; call_onComplete time] ∧
    payload = generateTestData random size ∧
    length payload = N.to_nat size ∧
    time = (finish - start)%Q ∧ (0 <= time)%Q ∧
    mount (BenchmarkApp m size depth random start) finish
    = mount (BenchmarkApp m size 0 random start) finish.
Proof.
  intros Hclock. exists (generateTestData random size), (finish - start)%Q.
  rewrite !mount_BenchmarkApp_updateCall.
  repeat split; try done.
  - apply Array_from_length.
  - lra.
Qed.

Lemma BenchmarkApp_payload_and_time_witness :
  (0 <= 3 # 2)%Q ∧
  ∃ payload time,
    mount (BenchmarkApp redux 3 7 (λ _, 1 # 2) 0) (3 # 2)
    = [updateCall redux payload; call_onComplete time] ∧
    length payload = 3.
Proof.
  assert (Hclock : (0 <= 3 # 2)%Q) by discriminate.
  split; [exact Hclock|].
  destruct (BenchmarkApp_payload_and_time redux 3 7 (λ _, 1 # 2) 0 (3 # 2) Hclock)
    as (payload & time & Hmount & _ & Hlength & _).
  exists payload, time. split; [exact Hmount|exact Hlength].
Defined.

(** ** Keys *)

(** X4. Different sizes have different size labels and different depths
    have different depth labels, so an insertion for one triple of
    strategy, size and depth leaves the cell of every other triple as it
    was. *)
Theorem record_other_triple
    (m m' : Method) (size size' : N) (depth depth' : nat) (time : Q) (R : Results) :
  (m', size', depth') ≠ (m, size, depth) →
  (sizeLabel size' = sizeLabel size ↔ size' = size) ∧
  (depthLabel depth' = depthLabel depth ↔ depth' = depth) ∧
  cell m' (sizeLabel size') (depthLabel depth') (record m size depth time R)
  = cell m' (sizeLabel size') (depthLabel depth') R.
Proof.
  intros Hne.
  split; [split; [apply (inj sizeLabel)|by intros ->]|].
  split; [split; [apply (inj depthLabel)|by intros ->]|].
  rewrite cell_record. apply decide_False.
  intros (-> & ->%(inj sizeLabel) & ->%(inj depthLabel)). done.
Qed.

Lemma record_other_triple_witness :
  (redux, 10%N, 5) ≠ (context, 10%N, 5) ∧
  cell redux (sizeLabel 10) (depthLabel 5) (record context 10 5 1 emptyResults)
  = cell redux (sizeLabel 10) (depthLabel 5) emptyResults.
Proof.
  assert (Hne : (redux, 10%N, 5) ≠ (context, 10%N, 5)) by discriminate.
  split; [exact Hne|].
  exact (proj2 (proj2 (record_other_triple context redux 10 10 5 5 1
                         emptyResults Hne))).
Defined.

(** ** The button *)

(** X11. Clicking twice starts one sweep: after a click the button is
    disabled, so a second click changes nothing. *)
Theorem onClick_twice (cfg : Config) (w : World) :
  onClick cfg (onClick cfg w) = onClick cfg w ∧
  isRunning (onClick cfg w) = true.
Proof.
  unfold onClick. destruct (isRunning w) eqn:Hrunning.
  - by rewrite Hrunning.
  - by rewrite runBenchmarks_eq.
Qed.

(** X12. Starting a sweep never touches what earlier sweeps collected:
    the reference held by [benchmarkResults], every earlier [newResults]
    object, the data of the store and of the providers mounted before
    and the roots pending before are as they were; the sweep sets the
    flag, appends one new empty object, and every root it issues has a
    handler bound to that new object. *)
Theorem runBenchmarks_keeps_results (cfg : Config) (w : World) :
  benchmarkResults (runBenchmarks cfg w) = benchmarkResults w ∧
  objs (runBenchmarks cfg w) = objs w ++ [emptyResults] ∧
  stores (runBenchmarks cfg w) = stores w ∧
  take (length (providers w)) (providers (runBenchmarks cfg w)) = providers w ∧
  take (length (pending w)) (pending (runBenchmarks cfg w)) = pending w ∧
  isRunning (runBenchmarks cfg w) = true ∧
  ∀ r, r ∈ issued cfg w → sweep r = length (objs w).
Proof.
  rewrite runBenchmarks_eq. simpl.
  do 3 (split; [done|]).
  split; [by rewrite take_app_length|].
  split; [by rewrite take_app_length|].
  split; [done|].
  intros r Hr. rewrite issued_eq in Hr.
  by apply sweep_outerRuns in Hr as [? _].
Qed.

(** ** Where the entries of the matrix come from *)

Lemma cell_recordAll_origin sched R m sizeKey depthKey time :
  cell m sizeKey depthKey (recordAll sched R) = Some time →
  cell m sizeKey depthKey R = Some time
  ∨ ∃ r e, (r, e) ∈ sched ∧ m = method r ∧
           sizeKey = sizeLabel (arraySize r) ∧
           depthKey = depthLabel (depth r) ∧ time = elapsed e.
Proof.
  induction sched as [|[r e] sched IH] using rev_ind; [by left|].
  rewrite recordAll_snoc. unfold recordRun at 1. rewrite cell_record. simpl.
  case_decide as Hkey.
  - intros [= <-]. destruct Hkey as (-> & -> & ->). right.
    exists r, e. split; [|done]. apply elem_of_app. right. by left.
  - intros [?|(r' & e' & Hin & ?)]%IH; [by left|right].
    exists r', e'. split; [|done]. apply elem_of_app. by left.
Qed.

Lemma cell_emptyResults m sizeKey depthKey :
  cell m sizeKey depthKey emptyResults = None.
Proof. unfold cell. by destruct m. Qed.

(** X5. Every entry of the matrix of a sweep is the elapsed time of a
    completed run of that sweep with exactly that strategy, size label
    and depth label; when the clock of the engine never goes back, no
    entry is negative. *)
Theorem cells_come_from_completions
    (cfg : Config) (sched : list (Run * Env)) (w' : World)
    (m : Method) (sizeKey depthKey : string) (time : Q) (R : Results) :
  flushAll cfg sched (runBenchmarks cfg initWorld) = Some w' →
  objs w' !! 0 = Some R →
  cell m sizeKey depthKey R = Some time →
  (∃ r e, (r, e) ∈ sched ∧ r ∈ issued cfg initWorld ∧
          m = method r ∧ sizeKey = sizeLabel (arraySize r) ∧
          depthKey = depthLabel (depth r) ∧ time = elapsed e) ∧
  (Forall (λ c, (startTime c.2 <= endTime c.2)%Q) sched → (0 <= time)%Q).
Proof.
  intros Hall Hobjs Hcell.
  destruct (flushAll_sweep _ _ _ Hall) as (_ & Hsub & Hobjs' & _).
  rewrite Hobjs' in Hobjs. injection Hobjs as <-.
  apply cell_recordAll_origin in Hcell
    as [Hcell|(r & e & Hin & -> & -> & -> & ->)];
    [by rewrite cell_emptyResults in Hcell|].
  split.
  - exists r, e. repeat split; try done.
    apply Hsub. by apply (list_elem_of_fmap_2 fst) in Hin.
  - rewrite Forall_forall. intros Hclock. specialize (Hclock _ Hin).
    simpl in Hclock. unfold elapsed. lra.
Qed.

Lemma cells_come_from_completions_witness :
  ∃ r e, (r, e) ∈ depth5First reduced ∧ r ∈ issued reduced initWorld ∧
         redux = method r ∧ sizeLabel 10 = sizeLabel (arraySize r) ∧
         depthLabel 5 = depthLabel (depth r) ∧ (1 : Q) = elapsed e.
Proof.
  eapply (cells_come_from_completions reduced (depth5First reduced)
            (default initWorld
               (flushAll reduced (depth5First reduced)
                  (runBenchmarks reduced initWorld)))
            redux (sizeLabel 10) (depthLabel 5) 1).
  - vm_compute. reflexivity.
  - vm_compute. reflexivity.
  - vm_compute. reflexivity.
Defined.

(** ** Counting the entries *)

Lemma leaves_insert_fresh (t : gmap string (gmap string Q)) key row :
  t !! key = None → leaves (<[key := row]> t) = size row + leaves t.
Proof.
  intros Hkey. unfold leaves.
  rewrite map_fold_insert_L; [done| |done]. intros; lia.
Qed.

Lemma leaves_insert (t : gmap string (gmap string Q)) key row :
  leaves (<[key := row]> t) = size row + leaves (delete key t).
Proof.
  rewrite <- insert_delete_eq.
  apply leaves_insert_fresh, lookup_delete_eq.
Qed.

Lemma leaves_lookup (t : gmap string (gmap string Q)) key row :
  t !! key = Some row → leaves t = size row + leaves (delete key t).
Proof.
  intros Hkey. rewrite <- (insert_delete_id t key row Hkey) at 1.
  apply leaves_insert_fresh, lookup_delete_eq.
Qed.

Lemma leaves_table_record m size depth time R :
  leaves (table m (record m size depth time R))
  = leaves (table m R)
    + (if cell m (sizeLabel size) (depthLabel depth) R is Some _ then 0 else 1).
Proof.
  rewrite table_record, decide_True by done. rewrite leaves_insert.
  unfold cell.
  destruct (table m R !! sizeLabel size) as [row|] eqn:Hrow; simpl.
  - rewrite (leaves_lookup _ _ _ Hrow).
    destruct (row !! depthLabel depth) eqn:Hcell.
    + rewrite map_size_insert_Some by done. lia.
    + rewrite map_size_insert_None by done. lia.
  - rewrite delete_id by done.
    rewrite map_size_insert_None, map_size_empty by done. lia.
Qed.

Lemma populated_record m size depth time R :
  populated (record m size depth time R)
  = populated R
    + (if cell m (sizeLabel size) (depthLabel depth) R is Some _ then 0 else 1).
Proof.
  assert (Htables : ∀ R', populated R'
                          = leaves (table context R') + leaves (table redux R'))
    by done.
  rewrite !Htables. destruct m.
  - rewrite leaves_table_record, (table_record context _ _ _ _ redux).
    rewrite decide_False by done. lia.
  - rewrite leaves_table_record, (table_record redux _ _ _ _ context).
    rewrite decide_False by done. lia.
Qed.

Lemma populated_recordAll sched :
  NoDup ((spec ∘ fst) <$> sched) →
  populated (recordAll sched emptyResults) = length sched.
Proof.
  induction sched as [|[r e] sched IH] using rev_ind; [done|].
  rewrite fmap_app, NoDup_app. intros (Hnodup & Hnew & _).
  rewrite recordAll_snoc, length_app. unfold recordRun at 1.
  rewrite populated_record, IH by done. simpl.
  destruct (cell _ _ _ (recordAll sched emptyResults)) as [time|] eqn:Hcell;
    [|done].
  apply cell_recordAll_origin in Hcell
    as [Hcell|(r' & e' & Hin & Hm & Hs%(inj sizeLabel) & Hd%(inj depthLabel) & _)];
    [by rewrite cell_emptyResults in Hcell|].
  destruct (Hnew (spec r)).
  - apply list_elem_of_fmap. exists (r', e'). split; [|done].
    unfold compose, spec. simpl. by rewrite Hm, Hs, Hd.
  - simpl. by left.
Qed.

Lemma length_filter_ne (r : Run) (l : list Run) :
  NoDup l → r ∈ l → S (length (filter (λ r', r' ≠ r) l)) = length l.
Proof.
  induction l as [|a l IH]; [by intros _ ?%elem_of_nil|].
  rewrite NoDup_cons. intros [Ha Hl] Hin. rewrite filter_cons.
  destruct (decide (a = r)) as [->|Hne].
  - rewrite decide_False by (by intros ?). simpl. f_equal.
    f_equal. apply filter_all. intros r' Hr' ->. done.
  - rewrite decide_True by done. simpl. f_equal. apply IH; [done|].
    apply elem_of_cons in Hin as [->|?]; done.
Qed.

Lemma flushAll_length_pending cfg sched w w' :
  NoDup (pending w) →
  flushAll cfg sched w = Some w' →
  length (pending w') + length sched = length (pending w).
Proof.
  revert w. induction sched as [|[r e] sched IH]; intros w Hnodup; simpl.
  - intros [= <-]. lia.
  - destruct (flush cfg r e w) as [w1|] eqn:Hflush; [|done]. intros Hall.
    apply flush_pending in Hflush as [Hr Hpending].
    rewrite <- (length_filter_ne r (pending w)), <- Hpending by done.
    rewrite <- (IH w1); [lia| |done].
    rewrite Hpending. by apply NoDup_filter.
Qed.

(** X6. In a sweep over sizes and depths without repeats, whatever the
    order of the completions, the matrix has exactly one entry per
    completion so far, and entries and pending runs together are as
    many as the runs issued: no completion is lost or counted twice. *)
Theorem one_entry_per_completion
    (cfg : Config) (sched : list (Run * Env)) (w' : World) :
  NoDup (arraySizes cfg) → NoDup (depths cfg) →
  flushAll cfg sched (runBenchmarks cfg initWorld) = Some w' →
  ∃ R, objs w' = [R] ∧
    populated R = length sched ∧
    populated R + length (pending w')
    = 2 * length (arraySizes cfg) * length (depths cfg).
Proof.
  intros Hsizes Hdepths Hall.
  destruct (flushAll_sweep _ _ _ Hall) as (Hnodup & Hsub & Hobjs & _).
  exists (recordAll sched emptyResults). split; [done|].
  assert (Hspecs : NoDup (spec <$> issued cfg initWorld))
    by by apply NoDup_issued_specs.
  assert (Hpop : populated (recordAll sched emptyResults) = length sched).
  { apply populated_recordAll. rewrite list_fmap_compose.
    apply NoDup_fmap_2_strong; [|done].
    intros r r' Hr Hr'.
    apply (NoDup_fmap_inj_on spec (issued cfg initWorld)); [done|by apply Hsub..]. }
  split; [done|]. rewrite Hpop, <- length_issued with (w := initWorld).
  assert (Hpending : NoDup (pending (runBenchmarks cfg initWorld))).
  { rewrite issued_initWorld. simpl. by eapply NoDup_fmap_1. }
  pose proof (flushAll_length_pending _ _ _ _ Hpending Hall) as Hlen.
  rewrite issued_initWorld in Hlen. simpl in Hlen. lia.
Qed.

Lemma one_entry_per_completion_witness :
  ∃ R,
    objs (default initWorld
            (flushAll reduced (depth5First reduced)
               (runBenchmarks reduced initWorld))) = [R] ∧
    populated R = 4 ∧
    populated R
    + length (pending (default initWorld
                         (flushAll reduced (depth5First reduced)
                            (runBenchmarks reduced initWorld))))
    = 8.
Proof.
  apply (one_entry_per_completion reduced (depth5First reduced)).
  - compute_done.
  - compute_done.
  - vm_compute. reflexivity.
Defined.

(** ** The running flag during a sweep *)

Lemma allComplete_emptyResults cfg :
  arraySizes cfg ≠ [] → allComplete cfg emptyResults = false.
Proof.
  intros Hsizes. unfold allComplete. simpl. rewrite map_size_empty.
  by destruct (arraySizes cfg).
Qed.

Lemma dom_recordRun cfg R r e m :
  arraySize r ∈ arraySizes cfg →
  dom (table m R) ⊆ sizeLabels cfg →
  dom (table m (recordRun R (r, e))) ⊆ sizeLabels cfg.
Proof.
  intros Hsize HR. apply (dom_recordAll cfg [(r, e)] R m); [|done].
  by intros r' ->%list_elem_of_singleton.
Qed.

(** Once both strategies have every size label, they keep them. *)
Lemma allComplete_recordRun cfg R r e :
  NoDup (arraySizes cfg) →
  (∀ m, dom (table m R) ⊆ sizeLabels cfg) →
  arraySize r ∈ arraySizes cfg →
  allComplete cfg R = true →
  allComplete cfg (recordRun R (r, e)) = true.
Proof.
  intros Hsizes HR Hsize Hdone.
  apply allComplete_iff in Hdone as [Hc Hr];
    [|done|apply (HR context)|apply (HR redux)].
  apply allComplete_iff;
    [done|apply (dom_recordRun cfg R r e context), (HR context); done
    |apply (dom_recordRun cfg R r e redux), (HR redux); done|].
  assert (Hlabel : sizeLabel (arraySize r) ∈ sizeLabels cfg)
    by by apply elem_of_list_to_set, list_elem_of_fmap_2.
  assert (Hfull : ∀ m, dom (table m R) = sizeLabels cfg) by by intros [].
  assert (Hnew : ∀ m, dom (table m (recordRun R (r, e))) = sizeLabels cfg).
  { intros m. unfold recordRun. rewrite dom_table_record. cbn [fst snd].
    case_decide; [|apply Hfull]. rewrite Hfull.
    by apply subseteq_union_1_L, singleton_subseteq_l. }
  split; [apply (Hnew context)|apply (Hnew redux)].
Qed.

Lemma running_published_after cfg sched R running published0 :
  NoDup (arraySizes cfg) →
  (∀ m, dom (table m R) ⊆ sizeLabels cfg) →
  (∀ r, r ∈ sched.*1 → arraySize r ∈ arraySizes cfg) →
  running = negb (allComplete cfg R) →
  published0 = (if allComplete cfg R then Some 0 else None) →
  runningAfter cfg sched R running
  = negb (allComplete cfg (recordAll sched R)) ∧
  publishedAfter cfg 0 sched R published0
  = (if allComplete cfg (recordAll sched R) then Some 0 else None).
Proof.
  intros Hsizes. revert R running published0.
  induction sched as [|[r e] sched IH]; intros R running published0 HR Hin -> ->;
    [done|].
  simpl. apply IH.
  - intros m. apply dom_recordRun, HR. apply Hin. by left.
  - intros r' Hr'. apply Hin. by right.
  - destruct (allComplete cfg (recordRun R (r, e))) eqn:Hnew; [done|].
    destruct (allComplete cfg R) eqn:Hold; [|done].
    rewrite allComplete_recordRun in Hnew; try done. apply Hin. by left.
  - destruct (allComplete cfg (recordRun R (r, e))) eqn:Hnew; [done|].
    destruct (allComplete cfg R) eqn:Hold; [|done].
    rewrite allComplete_recordRun in Hnew; try done. apply Hin. by left.
Qed.

Lemma dom_emptyResults cfg m : dom (table m emptyResults) ⊆ sizeLabels cfg.
Proof. destruct m; simpl; rewrite dom_empty_L; apply empty_subseteq. Qed.

Lemma schedule_sizes cfg sched w' r :
  flushAll cfg sched (runBenchmarks cfg initWorld) = Some w' →
  r ∈ sched.*1 → arraySize r ∈ arraySizes cfg ∧ depth r ∈ depths cfg.
Proof.
  intros Hall Hr. destruct (flushAll_sweep _ _ _ Hall) as (_ & Hsub & _).
  apply Hsub in Hr. rewrite issued_eq in Hr.
  by apply sweep_outerRuns in Hr as (_ & ? & ?).
Qed.

Lemma flushAll_snoc cfg sched r e w0 w w' :
  flushAll cfg sched w0 = Some w →
  flush cfg r e w = Some w' →
  flushAll cfg (sched ++ [(r, e)]) w0 = Some w'.
Proof.
  revert w0. induction sched as [|[r1 e1] sched IH]; intros w0; simpl.
  - intros [= ->] Hflush. by rewrite Hflush.
  - destruct (flush cfg r1 e1 w0); [apply IH|done].
Qed.

Lemma flag_during_sweep cfg sched w' :
  NoDup (arraySizes cfg) → arraySizes cfg ≠ [] →
  flushAll cfg sched (runBenchmarks cfg initWorld) = Some w' →
  objs w' = [recordAll sched emptyResults] ∧
  isRunning w' = negb (allComplete cfg (recordAll sched emptyResults)) ∧
  benchmarkResults w'
  = (if allComplete cfg (recordAll sched emptyResults) then Some 0 else None).
Proof.
  intros Hsizes Hne Hall.
  destruct (flushAll_sweep _ _ _ Hall) as (_ & _ & Hobjs & -> & -> & _).
  split; [done|].
  apply running_published_after; try done.
  - apply dom_emptyResults.
  - intros r Hr. by apply (schedule_sizes cfg sched w').
  - by rewrite allComplete_emptyResults.
  - by rewrite allComplete_emptyResults.
Qed.

(** C3. After every insertion of a sweep over sizes without repeats,
    whatever the completions before it: the handler has stored the
    result in the matrix, and it clears the running flag and publishes
    the matrix exactly when, in the matrix with that result, the size
    labels present are the labels of the configured sizes for both
    strategies; otherwise flag and published reference stay as they
    were. The check looks at the size labels only, so any matrix with
    the same size labels, whatever its depth entries, gets the same
    answer. *)
Theorem complete_iff_size_labels
    (cfg : Config) (sched : list (Run * Env)) (r : Run) (e : Env)
    (w w' : World) :
  NoDup (arraySizes cfg) → arraySizes cfg ≠ [] →
  flushAll cfg sched (runBenchmarks cfg initWorld) = Some w →
  flush cfg r e w = Some w' →
  ∃ R R', objs w = [R] ∧
    R' = record (method r) (arraySize r) (depth r) (elapsed e) R ∧
    objs w' = [R'] ∧
    cell (method r) (sizeLabel (arraySize r)) (depthLabel (depth r)) R'
    = Some (elapsed e) ∧
    (isRunning w' = false
     ↔ dom (r_context R') = sizeLabels cfg ∧ dom (r_redux R') = sizeLabels cfg) ∧
    (benchmarkResults w' = Some 0
     ↔ dom (r_context R') = sizeLabels cfg ∧ dom (r_redux R') = sizeLabels cfg) ∧
    (allComplete cfg R' = true
     ↔ dom (r_context R') = sizeLabels cfg ∧ dom (r_redux R') = sizeLabels cfg) ∧
    isRunning w' = (if allComplete cfg R' then false else isRunning w) ∧
    benchmarkResults w'
    = (if allComplete cfg R' then Some 0 else benchmarkResults w) ∧
    ∀ R'', dom (r_context R'') = dom (r_context R') →
           dom (r_redux R'') = dom (r_redux R') →
           allComplete cfg R'' = allComplete cfg R'.
Proof.
  intros Hsizes Hne Hall Hflush.
  pose proof (flushAll_snoc _ _ _ _ _ _ _ Hall Hflush) as Hall'.
  destruct (flag_during_sweep cfg sched w Hsizes Hne Hall) as (Hobjs & _ & _).
  destruct (flag_during_sweep cfg _ w' Hsizes Hne Hall')
    as (Hobjs' & Hrun' & Hpub').
  destruct (complete_after_insertion cfg sched r e w w' Hsizes Hall Hflush)
    as (R' & HR' & Hiff & Hrun & Hpub).
  rewrite recordAll_snoc in Hobjs', Hrun', Hpub'.
  rewrite Hobjs' in HR'. injection HR' as <-.
  exists (recordAll sched emptyResults),
         (recordRun (recordAll sched emptyResults) (r, e)).
  split; [done|]. split; [done|]. split; [done|].
  split; [unfold recordRun; simpl; by rewrite cell_record, decide_True|].
  split; [rewrite <- Hiff, Hrun'; by destruct (allComplete cfg _)|].
  split; [rewrite <- Hiff, Hpub'; by destruct (allComplete cfg _)|].
  do 3 (split; [done|]).
  intros R'' Hc Hr. by apply allComplete_dom.
Qed.

Lemma complete_iff_size_labels_witness :
  ∃ R R',
    objs (default initWorld
            (flushAll reduced (take 3 (depth5First reduced))
               (runBenchmarks reduced initWorld))) = [R] ∧
    R' = record redux 100 5 (elapsed unitEnv) R ∧
    isRunning
      (default initWorld
         (flush reduced (mkRun redux 100 5 store 0) unitEnv
            (default initWorld
               (flushAll reduced (take 3 (depth5First reduced))
                  (runBenchmarks reduced initWorld))))) = false ∧
    dom (r_context R') = sizeLabels reduced ∧
    dom (r_redux R') = sizeLabels reduced.
Proof.
  destruct (complete_iff_size_labels reduced (take 3 (depth5First reduced))
              (mkRun redux 100 5 store 0) unitEnv
              (default initWorld
                 (flushAll reduced (take 3 (depth5First reduced))
                    (runBenchmarks reduced initWorld)))
              (default initWorld
                 (flush reduced (mkRun redux 100 5 store 0) unitEnv
                    (default initWorld
                       (flushAll reduced (take 3 (depth5First reduced))
                          (runBenchmarks reduced initWorld))))))
    as (R & R' & Hobjs & HR' & _ & _ & Hiff & _).
  - compute_done.
  - discriminate.
  - vm_compute. reflexivity.
  - vm_compute. reflexivity.
  - assert (Hcleared :
      isRunning
        (default initWorld
           (flush reduced (mkRun redux 100 5 store 0) unitEnv
              (default initWorld
                 (flushAll reduced (take 3 (depth5First reduced))
                    (runBenchmarks reduced initWorld))))) = false)
      by (vm_compute; reflexivity).
    exists R, R'. split; [exact Hobjs|]. split; [exact HR'|].
    split; [exact Hcleared|]. exact (proj1 Hiff Hcleared).
Defined.

(** X9. Throughout a sweep over sizes without repeats, whatever the order of
    the completions: the running flag is set exactly as long as some
    strategy lacks a size label, and the matrix of the sweep is the
    published one exactly from the moment the flag is cleared; a later
    completion never sets the flag again. *)
Theorem flag_tracks_size_labels
    (cfg : Config) (sched : list (Run * Env)) (w' : World) :
  NoDup (arraySizes cfg) → arraySizes cfg ≠ [] →
  flushAll cfg sched (runBenchmarks cfg initWorld) = Some w' →
  ∃ R, objs w' = [R] ∧
    (isRunning w' = false
     ↔ dom (r_context R) = sizeLabels cfg ∧ dom (r_redux R) = sizeLabels cfg) ∧
    (isRunning w' = false ↔ benchmarkResults w' = Some 0) ∧
    (isRunning w' = true ↔ benchmarkResults w' = None) ∧
    ∀ r e w'', isRunning w' = false → flush cfg r e w' = Some w'' →
               isRunning w'' = false.
Proof.
  intros Hsizes Hne Hall.
  destruct (flag_during_sweep cfg sched w' Hsizes Hne Hall)
    as (Hobjs & Hrun & Hpub).
  exists (recordAll sched emptyResults). split; [done|].
  assert (Hiff : allComplete cfg (recordAll sched emptyResults) = true
                 ↔ dom (r_context (recordAll sched emptyResults)) = sizeLabels cfg
                   ∧ dom (r_redux (recordAll sched emptyResults)) = sizeLabels cfg).
  { apply allComplete_iff; [done|..].
    - apply (dom_recordAll cfg _ _ context), (dom_emptyResults cfg context).
      intros r Hr. by apply (schedule_sizes cfg sched w').
    - apply (dom_recordAll cfg _ _ redux), (dom_emptyResults cfg redux).
      intros r Hr. by apply (schedule_sizes cfg sched w'). }
  rewrite Hrun, Hpub, <- Hiff.
  destruct (allComplete cfg (recordAll sched emptyResults)) eqn:Hdone; simpl.
  - repeat split; try done.
    intros r e w'' _ Hflush.
    destruct (flush_pending _ _ _ _ _ Hflush) as [Hr _].
    pose proof (flushAll_snoc _ _ _ _ _ _ _ Hall Hflush) as Hall'.
    destruct (flag_during_sweep cfg _ w'' Hsizes Hne Hall') as (_ & -> & _).
    rewrite recordAll_snoc, allComplete_recordRun; try done.
    + intros m. apply dom_recordAll, dom_emptyResults.
      intros r' Hr'. by apply (schedule_sizes cfg sched w').
    + apply (schedule_sizes cfg _ w'' r Hall').
      rewrite fmap_app. apply elem_of_app. right. by left.
  - repeat split; try done. 
Qed.

Lemma flag_tracks_size_labels_witness :
  ∃ R,
    objs (default initWorld
            (flushAll reduced (depth5First reduced)
               (runBenchmarks reduced initWorld))) = [R] ∧
    (isRunning (default initWorld
                  (flushAll reduced (depth5First reduced)
                     (runBenchmarks reduced initWorld))) = false
     ↔ dom (r_context R) = sizeLabels reduced
       ∧ dom (r_redux R) = sizeLabels reduced).
Proof.
  destruct (flag_tracks_size_labels reduced (depth5First reduced)
              (default initWorld
                 (flushAll reduced (depth5First reduced)
                    (runBenchmarks reduced initWorld))))
    as (R & Hobjs & Hiff & _).
  - compute_done.
  - discriminate.
  - vm_compute. reflexivity.
  - exists R. split; [exact Hobjs|exact Hiff].
Defined.

Lemma size_label_recorded sched R r e :
  (r, e) ∈ sched →
  sizeLabel (arraySize r) ∈ dom (table (method r) (recordAll sched R)).
Proof.
  induction sched as [|[r' e'] sched IH] using rev_ind;
    [by intros ?%elem_of_nil|].
  rewrite recordAll_snoc. unfold recordRun at 1. rewrite dom_table_record.
  cbn [fst snd]. intros [Hin|Heq%list_elem_of_singleton]%elem_of_app.
  - case_decide as Hm; [|by apply IH]. apply elem_of_union. right.
    rewrite <- Hm. by apply IH.
  - injection Heq as -> ->. rewrite decide_True by done.
    apply elem_of_union. left. by apply elem_of_singleton.
Qed.

Lemma another_depth (depths : list nat) (depth : nat) :
  NoDup depths → (2 ≤ length depths)%nat → ∃ depth', depth' ∈ depths ∧ depth' ≠ depth.
Proof.
  destruct depths as [|d1 [|d2 depths]]; simpl; [lia..|].
  intros [Hd1 _]%NoDup_cons _.
  destruct (decide (d1 = depth)) as [->|Hne].
  - exists d2. split; [right; left|]. intros ->. apply Hd1. left.
  - exists d1. split; [left|done].
Qed.

(** X10. In a sweep over sizes and depths without repeats and with at least
    two depths, whatever the order of the completions: the completion
    that clears the running flag is the first one for its strategy and
    size, so no run of that strategy and size has completed before and
    every other run of that strategy and size, one for each other depth,
    is still pending at that moment; the flag is never first cleared by
    the last completion. *)
Theorem flag_cleared_before_last_completion
    (cfg : Config) (sched : list (Run * Env)) (r : Run) (e : Env) (w w' : World) :
  NoDup (arraySizes cfg) → NoDup (depths cfg) → (2 ≤ length (depths cfg))%nat →
  flushAll cfg sched (runBenchmarks cfg initWorld) = Some w →
  isRunning w = true →
  flush cfg r e w = Some w' →
  isRunning w' = false →
  (∀ r' e', (r', e') ∈ sched →
     ¬ (method r' = method r ∧ arraySize r' = arraySize r)) ∧
  (∀ r', r' ∈ issued cfg initWorld →
     method r' = method r → arraySize r' = arraySize r → r' ≠ r →
     r' ∈ pending w') ∧
  (∀ depth', depth' ∈ depths cfg → depth' ≠ depth r →
     ∃ r', r' ∈ pending w' ∧ method r' = method r ∧
           arraySize r' = arraySize r ∧ depth r' = depth') ∧
  ∃ r', r' ∈ pending w' ∧ method r' = method r ∧
        arraySize r' = arraySize r ∧ depth r' ≠ depth r.
Proof.
  intros Hsizes Hdepths Htwo Hall Hrunning Hflush Hcleared.
  pose proof (flushAll_snoc _ _ _ _ _ _ _ Hall Hflush) as Hall'.
  assert (Hr : arraySize r ∈ arraySizes cfg).
  { apply (schedule_sizes cfg _ w' r Hall').
    rewrite fmap_app. apply elem_of_app. right. by left. }
  assert (Hne : arraySizes cfg ≠ []) by (by intros Heq; rewrite Heq in Hr;
                                         apply elem_of_nil in Hr).
  destruct (flag_during_sweep cfg sched w Hsizes Hne Hall) as (_ & Hold & _).
  destruct (flag_during_sweep cfg _ w' Hsizes Hne Hall') as (_ & Hnew & _).
  rewrite Hrunning in Hold. rewrite Hcleared in Hnew.
  (* the size label of [r] is new for its strategy *)
  assert (Hfresh : sizeLabel (arraySize r)
                   ∉ dom (table (method r) (recordAll sched emptyResults))).
  { intros Hin.
    assert (Hsame : allComplete cfg (recordAll (sched ++ [(r, e)]) emptyResults)
                    = allComplete cfg (recordAll sched emptyResults)).
    { rewrite recordAll_snoc.
      apply allComplete_dom.
      - change (r_context ?X) with (table context X). unfold recordRun.
        rewrite dom_table_record. cbn [fst snd].
        case_decide as Hm; [|done]. rewrite Hm.
        by apply subseteq_union_1_L, singleton_subseteq_l.
      - change (r_redux ?X) with (table redux X). unfold recordRun.
        rewrite dom_table_record. cbn [fst snd].
        case_decide as Hm; [|done]. rewrite Hm.
        by apply subseteq_union_1_L, singleton_subseteq_l. }
    rewrite Hsame in Hnew. destruct (allComplete cfg _); done. }
  assert (Hnone : ∀ r' e', (r', e') ∈ sched →
            ¬ (method r' = method r ∧ arraySize r' = arraySize r)).
  { intros r' e' Hin [Hm Hs]. apply Hfresh. rewrite <- Hm, <- Hs.
    by apply (size_label_recorded sched emptyResults r' e'). }
  assert (Hothers : ∀ r', r' ∈ issued cfg initWorld →
            method r' = method r → arraySize r' = arraySize r → r' ≠ r →
            r' ∈ pending w').
  { intros r' Hissued Hm Hs Hdiff.
    destruct (flushAll_sweep _ _ _ Hall') as (_ & _ & _ & _ & _ & ->).
    apply list_elem_of_filter. split; [|done].
    rewrite fmap_app. intros [Hin|Hin%list_elem_of_singleton]%elem_of_app.
    - apply list_elem_of_fmap in Hin as ([r2 e2] & -> & Hin).
      by apply (Hnone r2 e2).
    - simpl in Hin. by subst r'. }
  assert (Hdepth : ∀ depth', depth' ∈ depths cfg → depth' ≠ depth r →
            ∃ r', r' ∈ pending w' ∧ method r' = method r ∧
                  arraySize r' = arraySize r ∧ depth r' = depth').
  { intros depth' Hdepth' Hother.
    assert (Hspec : (method r, arraySize r, depth')
                    ∈ spec <$> issued cfg initWorld).
    { rewrite issued_eq, spec_outerRuns. by apply elem_of_crossProduct. }
    apply list_elem_of_fmap in Hspec as (r' & Hspec & Hissued).
    injection Hspec as Hm Hs Hd.
    exists r'. split; [|done].
    apply Hothers; try done. intros ->. by apply Hother. }
  split; [done|]. split; [done|]. split; [done|].
  destruct (another_depth (depths cfg) (depth r) Hdepths Htwo)
    as (depth' & Hdepth' & Hother).
  destruct (Hdepth depth' Hdepth' Hother) as (r' & Hpending & Hm & Hs & Hd).
  exists r'. split; [done|]. split; [done|]. split; [done|]. by rewrite Hd.
Qed.

Lemma flag_cleared_before_last_completion_witness :
  ∃ r', r' ∈ pending
               (default initWorld
                  (flushAll reduced (depth5First reduced)
                     (runBenchmarks reduced initWorld))) ∧
        method r' = redux ∧ arraySize r' = 100%N ∧ depth r' ≠ 5.
Proof.
  apply (flag_cleared_before_last_completion reduced
           (take 3 (depth5First reduced)) (mkRun redux 100 5 store 0) unitEnv
           (default initWorld
              (flushAll reduced (take 3 (depth5First reduced))
                 (runBenchmarks reduced initWorld)))).
  - compute_done.
  - compute_done.
  - simpl. lia.
  - vm_compute. reflexivity.
  - vm_compute. reflexivity.
  - vm_compute. reflexivity.
  - vm_compute. reflexivity.
Defined.

(** ** The tables *)

Lemma depthLabel_displayed :
  depthLabel 5 = "Depth 5" ∧ depthLabel 10 = "Depth 10" ∧
  depthLabel 20 = "Depth 20" ∧ depthLabel 50 = "Depth 50".
Proof. repeat split; vm_compute; reflexivity. Qed.

Lemma tableRow_insert_other depth time (row : gmap string Q) :
  depth ∉ [5; 10; 20; 50] →
  tableRow (<[depthLabel depth := time]> row) = tableRow row.
Proof.
  intros Hdepth. unfold tableRow.
  destruct depthLabel_displayed as (H5 & H10 & H20 & H50).
  rewrite <- H5, <- H10, <- H20, <- H50.
  rewrite !lookup_insert_ne; [done|..];
    intros ->%(inj depthLabel); apply Hdepth; repeat constructor.
Qed.

(** X14. A time for a depth other than 5, 10, 20 and 50 is stored but not
    shown: inserting it changes no cell of the rows that a table would
    show, at most it adds, for a size label that was missing, a row of
    four empty cells. *)
Theorem other_depths_not_shown
    (m m' : Method) (size : N) (depth : nat) (time : Q) (R : Results)
    (sizeKey : string) :
  depth ∉ [5; 10; 20; 50] →
  (tableRow <$> table m' (record m size depth time R)) !! sizeKey
  = if decide (m' = m ∧ sizeKey = sizeLabel size ∧ table m R !! sizeKey = None)
    then Some [None; None; None; None]
    else (tableRow <$> table m' R) !! sizeKey.
Proof.
  intros Hdepth. rewrite !lookup_fmap, table_record.
  destruct (decide (m' = m)) as [->|Hm];
    [|by rewrite decide_False by tauto].
  destruct (decide (sizeKey = sizeLabel size)) as [->|Hkey];
    [|by rewrite lookup_insert_ne, decide_False by (congruence || tauto)].
  rewrite lookup_insert_eq. simpl. rewrite tableRow_insert_other by done.
  destruct (table m R !! sizeLabel size) as [row|] eqn:Hrow; simpl.
  - by rewrite decide_False by (intros (_ & _ & [=])).
  - by rewrite decide_True.
Qed.

Lemma other_depths_not_shown_witness :
  (60 ∉ [5; 10; 20; 50]) ∧
  ((tableRow <$> table redux (record redux 10 60 1 emptyResults))
     !! sizeLabel 10
   = Some [None; None; None; None]).
Proof.
  assert (Hdepth : 60 ∉ [5; 10; 20; 50]) by compute_done.
  split; [exact Hdepth|].
  rewrite (other_depths_not_shown redux redux 10 60 1 emptyResults
             (sizeLabel 10) Hdepth).
  reflexivity.
Defined.

Lemma completed_when_nothing_pending cfg sched w' r :
  flushAll cfg sched (runBenchmarks cfg initWorld) = Some w' →
  pending w' = [] →
  r ∈ issued cfg initWorld → ∃ e, (r, e) ∈ sched.
Proof.
  intros Hall Hpending Hr.
  destruct (flushAll_sweep _ _ _ Hall) as (_ & _ & _ & _ & _ & Hrest).
  destruct (decide (r ∈ sched.*1)) as [Hdone|Hnot].
  - apply list_elem_of_fmap in Hdone as ([r' e] & -> & Hin). by exists e.
  - assert (Hp : r ∈ pending w')
      by (rewrite Hrest; by apply list_elem_of_filter).
    rewrite Hpending in Hp. by apply elem_of_nil in Hp.
Qed.

Lemma allComplete_when_nothing_pending cfg sched w' :
  NoDup (arraySizes cfg) → depths cfg ≠ [] →
  flushAll cfg sched (runBenchmarks cfg initWorld) = Some w' →
  pending w' = [] →
  allComplete cfg (recordAll sched emptyResults) = true.
Proof.
  intros Hsizes Hdepths Hall Hpending.
  assert (Hsub : ∀ m, dom (table m (recordAll sched emptyResults))
                      ⊆ sizeLabels cfg).
  { intros m. apply dom_recordAll, dom_emptyResults.
    intros r Hr. by apply (schedule_sizes cfg sched w'). }
  assert (Hsup : ∀ m, sizeLabels cfg
                      ⊆ dom (table m (recordAll sched emptyResults))).
  { intros m label (size & -> & Hsize)%elem_of_list_to_set%list_elem_of_fmap.
    destruct (depths cfg) as [|depth depths'] eqn:Hd; [done|].
    assert (Hspec : (m, size, depth) ∈ spec <$> issued cfg initWorld).
    { rewrite issued_eq, spec_outerRuns. apply elem_of_crossProduct.
      split; [done|]. rewrite Hd. by left. }
    apply list_elem_of_fmap in Hspec as (r & Hspec & Hr).
    destruct (completed_when_nothing_pending cfg sched w' r) as [e Hin];
      [done..|].
    injection Hspec as -> -> _.
    by apply (size_label_recorded sched emptyResults r e). }
  apply allComplete_iff; [done|apply (Hsub context)|apply (Hsub redux)|].
  split; apply (anti_symm (⊆)).
  - apply (Hsub context).
  - apply (Hsup context).
  - apply (Hsub redux).
  - apply (Hsup redux).
Qed.

(** X15. After a sweep of which nothing is pending any more, over sizes and
    depths without repeats and whatever the order of the completions:
    the flag is cleared, [benchmarkResults] refers to the object of the
    sweep, that object has a row for exactly the configured size labels
    under both strategies, and the table row computed from the row of a
    completed run holds, in the column of depth 5, 10, 20 or 50, the
    elapsed time of the run with that strategy, size and depth. *)
Theorem rows_after_sweep
    (cfg : Config) (sched : list (Run * Env)) (w' : World) :
  NoDup (arraySizes cfg) → NoDup (depths cfg) →
  arraySizes cfg ≠ [] → depths cfg ≠ [] →
  flushAll cfg sched (runBenchmarks cfg initWorld) = Some w' →
  pending w' = [] →
  ∃ R, objs w' = [R] ∧
    isRunning w' = false ∧ benchmarkResults w' = Some 0 ∧
    dom (r_context R) = sizeLabels cfg ∧
    dom (r_redux R) = sizeLabels cfg ∧
    ∀ r e column,
      (r, e) ∈ sched → [5; 10; 20; 50] !! column = Some (depth r) →
      ∃ depthResults,
        table (method r) R !! sizeLabel (arraySize r) = Some depthResults ∧
        tableRow depthResults !! column = Some (Some (elapsed e)).
Proof.
  intros Hsizes Hdepths Hne Hdne Hall Hpending.
  set (R := recordAll sched emptyResults).
  assert (Hdone : allComplete cfg R = true)
    by by apply (allComplete_when_nothing_pending cfg sched w').
  destruct (flag_during_sweep cfg sched w' Hsizes Hne Hall)
    as (Hobjs & Hrun & Hpub).
  fold R in Hrun, Hpub. rewrite Hdone in Hrun, Hpub. simpl in Hrun.
  pose proof Hdone as Hdoms.
  apply allComplete_iff in Hdoms as [Hc Hr]; [|done|..];
    [|apply (dom_recordAll cfg _ _ context), (dom_emptyResults cfg context);
       intros r ?; by apply (schedule_sizes cfg sched w')
     |apply (dom_recordAll cfg _ _ redux), (dom_emptyResults cfg redux);
       intros r ?; by apply (schedule_sizes cfg sched w')].
  exists R. do 5 (split; [done|]).
  intros r e column Hin Hcolumn.
  assert (Hcell : cell (method r) (sizeLabel (arraySize r))
                       (depthLabel (depth r)) R = Some (elapsed e)).
  { apply cell_recordAll; [done|]. intros r' e' Hin' Hspec.
    by apply (schedule_runs_unique cfg sched w' r e r' e'). }
  unfold cell in Hcell.
  destruct (table (method r) R !! sizeLabel (arraySize r)) as [depthResults|]
    eqn:Hrow; [|done].
  simpl in Hcell. exists depthResults. split; [done|].
  destruct depthLabel_displayed as (H5 & H10 & H20 & H50).
  unfold tableRow. rewrite <- H5, <- H10, <- H20, <- H50.
  destruct column as [|[|[|[|]]]]; simpl in Hcolumn; [..|done];
    injection Hcolumn as Hdepth; rewrite <- Hdepth in Hcell;
    exact (f_equal Some Hcell).
Qed.

Lemma rows_after_sweep_witness :
  ∃ R,
    objs (default initWorld
            (flushAll reduced (timed (issued reduced initWorld))
               (runBenchmarks reduced initWorld))) = [R] ∧
    isRunning (default initWorld
                 (flushAll reduced (timed (issued reduced initWorld))
                    (runBenchmarks reduced initWorld))) = false ∧
    ∃ depthResults,
      table redux R !! sizeLabel 100 = Some depthResults ∧
      tableRow depthResults !! 1 = Some (Some (elapsed unitEnv)).
Proof.
  destruct (rows_after_sweep reduced (timed (issued reduced initWorld))
              (default initWorld
                 (flushAll reduced (timed (issued reduced initWorld))
                    (runBenchmarks reduced initWorld))))
    as (R & Hobjs & Hrun & _ & _ & _ & Hrows).
  - compute_done.
  - compute_done.
  - discriminate.
  - discriminate.
  - vm_compute. reflexivity.
  - vm_compute. reflexivity.
  - exists R. split; [exact Hobjs|]. split; [exact Hrun|].
    apply (Hrows (mkRun redux 100 10 store 0) unitEnv 1); [|reflexivity].
    apply list_elem_of_fmap. exists (mkRun redux 100 10 store 0).
    split; [reflexivity|compute_done].
Defined.

(** ** The data held by the media during a sweep *)

Lemma flushAll_snoc_inv cfg sched r e w0 w' :
  flushAll cfg (sched ++ [(r, e)]) w0 = Some w' →
  ∃ w, flushAll cfg sched w0 = Some w ∧ flush cfg r e w = Some w'.
Proof.
  revert w0. induction sched as [|[r1 e1] sched IH]; intros w0; simpl.
  - destruct (flush cfg r e w0) as [w1|] eqn:Hflush; [|done].
    intros [= <-]. by exists w0.
  - destruct (flush cfg r1 e1 w0); [apply IH|done].
Qed.

Lemma issued_medium_method cfg w r :
  r ∈ issued cfg w →
  match method r, medium r with
  | context, ProviderInstance p =>
      (length (providers w) ≤ p
       < length (providers w)
         + length (arraySizes cfg) * length (depths cfg))%nat
      ∧ uses (medium r) (issued cfg w) = 1
  | redux, StoreInstance s => s = 0
  | _, _ => False
  end.
Proof.
  rewrite issued_eq. intros Hr. pose proof Hr as Hmedia.
  apply media_outerRuns in Hmedia. destruct (method r).
  - destruct Hmedia as (q & Hq & Hrange). rewrite Hq. split; [done|].
    by rewrite uses_outerRuns_provider, decide_True.
  - by rewrite Hmedia.
Qed.

Lemma media_during_sweep cfg sched w :
  flushAll cfg sched (runBenchmarks cfg initWorld) = Some w →
  length (stores w) = 1 ∧
  ∀ r p, r ∈ pending w → medium r = ProviderInstance p →
         providers w !! p = Some [].
Proof.
  revert w. induction sched as [|[r1 e1] sched IH] using rev_ind; intros w.
  - simpl. intros [= <-]. rewrite issued_initWorld. simpl. split; [done|].
    intros r p Hr Hp. apply issued_medium_method in Hr. rewrite Hp in Hr.
    destruct (method r); [|done]. destruct Hr as [Hrange _]. simpl in Hrange.
    apply lookup_replicate. split; [done|lia].
  - intros (w1 & Hall & Hflush)%flushAll_snoc_inv.
    destruct (IH w1 Hall) as [Hstores Hproviders].
    destruct (flushAll_sweep _ _ _ Hall) as (_ & _ & _ & _ & _ & Hpending).
    destruct (flush_pending _ _ _ _ _ Hflush) as [Hr1 Hpending'].
    pose proof (flush_updates_own_medium _ _ _ _ _ Hflush) as Hmedia.
    assert (Hissued : ∀ r, r ∈ pending w1 → r ∈ issued cfg initWorld).
    { intros r. rewrite Hpending. by intros [_ ?]%list_elem_of_filter. }
    pose proof (issued_medium_method cfg initWorld r1 (Hissued _ Hr1)) as Hr1'.
    destruct (method r1) eqn:Hm1, (medium r1) as [s1|p1] eqn:Hmed1; try done.
    + destruct Hmedia as [Hprov Hstore]. split; [by rewrite Hstore|].
      intros r p Hr Hp. rewrite Hpending' in Hr.
      apply list_elem_of_filter in Hr as [Hne Hr].
      rewrite Hprov, list_lookup_insert_ne; [by apply (Hproviders r)|].
      intros ->. apply Hne. destruct Hr1' as [_ Hone].
      apply (uses_one_isolated (ProviderInstance p) (issued cfg initWorld));
        try done; by apply Hissued.
    + destruct Hmedia as [Hstore Hprov]. split.
      * by rewrite Hstore, length_alter.
      * intros r p Hr Hp. rewrite Hpending' in Hr.
        apply list_elem_of_filter in Hr as [_ Hr].
        rewrite Hprov. by apply (Hproviders r).
Qed.

(** X3. During a sweep, whatever the order of the completions: a broadcast
    run dispatches into the one store of the module and replaces what an
    earlier run left there by its own payload; a scoped run finds its
    own provider still empty, since no other run has written to it, and
    replaces that provider's data only. *)
Theorem completion_updates_own_medium
    (cfg : Config) (sched : list (Run * Env)) (r : Run) (e : Env) (w w' : World) :
  flushAll cfg sched (runBenchmarks cfg initWorld) = Some w →
  flush cfg r e w = Some w' →
  match method r with
  | redux =>
      medium r = store ∧
      stores w' = [generateTestData (random e) (arraySize r)] ∧
      providers w' = providers w
  | context =>
      ∃ p, medium r = ProviderInstance p ∧
        providers w !! p = Some [] ∧
        providers w'
        = <[p := generateTestData (random e) (arraySize r)]> (providers w) ∧
        stores w' = stores w
  end.
Proof.
  intros Hall Hflush.
  destruct (media_during_sweep cfg sched w Hall) as [Hstores Hproviders].
  destruct (flushAll_sweep _ _ _ Hall) as (_ & _ & _ & _ & _ & Hpending).
  destruct (flush_pending _ _ _ _ _ Hflush) as [Hr _].
  pose proof (flush_updates_own_medium _ _ _ _ _ Hflush) as Hmedia.
  assert (Hissued : r ∈ issued cfg initWorld).
  { rewrite Hpending in Hr. by apply list_elem_of_filter in Hr as [_ ?]. }
  apply issued_medium_method in Hissued.
  destruct (method r) eqn:Hm, (medium r) as [s|p] eqn:Hmed; try done.
  - exists p. destruct Hmedia as [Hprov Hstore].
    split; [done|]. split; [by apply (Hproviders r)|done].
  - subst s. destruct Hmedia as [Hstore Hprov]. split; [done|]. split; [|done].
    rewrite Hstore. by destruct (stores w) as [|data [|]].
Qed.

Lemma completion_updates_own_medium_witness :
  medium (mkRun redux 10 5 store 0) = store ∧
  stores (default initWorld
            (flush reduced (mkRun redux 10 5 store 0) unitEnv
               (runBenchmarks reduced initWorld)))
  = [generateTestData (random unitEnv) 10].
Proof.
  destruct (completion_updates_own_medium reduced []
              (mkRun redux 10 5 store 0) unitEnv
              (runBenchmarks reduced initWorld)
              (default initWorld
                 (flush reduced (mkRun redux 10 5 store 0) unitEnv
                    (runBenchmarks reduced initWorld))))
    as (Hmedium & Hstores & _).
  - reflexivity.
  - vm_compute. reflexivity.
  - split; [exact Hmedium|exact Hstores].
Defined.

Lemma final_matrix_order_independent_witness :
  objs (default initWorld
          (flushAll reduced (depth5First reduced)
             (runBenchmarks reduced initWorld)))
  = objs (default initWorld
            (flushAll reduced (reverse (depth5First reduced))
               (runBenchmarks reduced initWorld))).
Proof.
  apply (final_matrix_order_independent reduced (depth5First reduced)
           (reverse (depth5First reduced))).
  - compute_done.
  - compute_done.
  - vm_compute. reflexivity.
  - vm_compute. reflexivity.
  - symmetry. apply reverse_Permutation.
Defined.

Lemma sweep_fills_every_cell_witness :
  ∃ R,
    objs (default initWorld
            (flushAll reduced (timed (issued reduced initWorld))
               (runBenchmarks reduced initWorld))) = [R] ∧
    is_Some (cell redux (sizeLabel 100) (depthLabel 10) R).
Proof.
  apply (sweep_fills_every_cell reduced (timed (issued reduced initWorld))).
  - compute_done.
  - compute_done.
  - vm_compute. reflexivity.
  - vm_compute. reflexivity.
  - compute_done.
  - compute_done.
Defined.
